(** * The item registry of [server-crud.js]

    A shallow embedding of the in-memory CRUD server: the module-level array
    [items] is the state, every route handler is a function from the request
    data and the current array to the new array and the response it sends.

    Conventions of the embedding.
    - An item is the object [{ id, name, description }].  Its [id] is a
      JavaScript number that only ever comes from the literals [1], [2] and
      from [id + 1], so it is an integer-valued double; it is kept as the [Z]
      it denotes, and [id + 1] is the addition of doubles ([plus_one]): exact
      up to 2^53, rounded to the nearest double from there on.
    - [name] and [description] come from the decoded JSON body, so they are
      arbitrary JSON values; a key that is missing from the body reads as
      [undefined], which is [None] here.  The handlers are modelled for
      requests whose [req.body] is an object: a decoded JSON body, or the [{}]
      that Express 4 puts there when there is none.  A request that reaches
      the destructuring with [req.body] undefined (Express 5, nothing parsed)
      makes the handler throw and is outside the model.
    - The handlers that take [:id] see it through [parseInt], whose result is
      [NaN] or an integer; that number is the argument of the operation. *)

From Stdlib Require Import ZArith String SpecFloat Sorted.
From stdpp Require Import base list strings sorting.

Local Open Scope Z_scope.

(** ** JavaScript values *)

(** A value produced by [express.json()]: what [JSON.parse] can return. *)
#[local] Set Warnings "-register-all".
Inductive jsval : Type :=
  | JNull
  | JBool (b : bool)
  | JNum (x : spec_float)
  | JStr (s : string)
  | JArr (elems : list jsval)
  | JObj (props : list (string * jsval)).

(** ToBoolean on a defined value: [null], [false], [0], [-0], [NaN] and the
    empty string are falsy, everything else (objects and arrays too) is
    truthy. *)
Definition truthy (v : jsval) : bool :=
  match v with
  | JNull => false
  | JBool b => b
  | JNum (S754_zero _) | JNum S754_nan => false
  | JNum _ => true
  | JStr s => negb (String.eqb s "")
  | JArr _ | JObj _ => true
  end.

(** ToBoolean on a destructured property: [undefined] is falsy. *)
Definition truthy_opt (v : option jsval) : bool :=
  match v with
  | None => false
  | Some v => truthy v
  end.

(** [v || d] for a default [d] that is a defined value. *)
Definition or_else (v : option jsval) (d : jsval) : jsval :=
  match v with
  | Some x => if truthy x then x else d
  | None => d
  end.

(** [v ?? d]: only [undefined] and [null] fall through to [d]. *)
Definition nullish (v : option jsval) (d : jsval) : jsval :=
  match v with
  | None | Some JNull => d
  | Some x => x
  end.

(** The result of [parseInt(req.params.id)]. *)
Inductive number : Type :=
  | NaN
  | Int (z : Z).

(** *** Integers held in doubles *)

(** 2^53: up to here every integer is a double, beyond only every second,
    fourth, ... one is. *)
Definition two_53 : Z := 9007199254740992.

(** The double nearest to the integer [z], ties going to the even mantissa
    (the IEEE-754 default JavaScript uses).  Up to 2^53 in magnitude [z] is a
    double itself.  Beyond, with [2^k <= |z| < 2^(k+1)], the doubles are the
    multiples of [2^e] for [e = k - 52]: [|z|] is cut to [q * 2^e + r] and goes
    up to [(q + 1) * 2^e] when [r] is more than half of [2^e], or exactly half
    with [q] odd.  (Overflow to [Infinity] starts at 2^1024 and is not
    modelled; the sum of a double and 1 never gets there.) *)
Definition to_double (z : Z) : Z :=
  let a := Z.abs z in
  if a <=? two_53 then z
  else
    let e := Z.log2 a - 52 in
    let q := a / 2 ^ e in
    let r := a mod 2 ^ e in
    let half := 2 ^ (e - 1) in
    let q' := if (half <? r) || ((r =? half) && Z.odd q) then q + 1 else q in
    Z.sgn z * (q' * 2 ^ e).

(** [z + 1] on an integer-valued double [z]: the exact sum, rounded. *)
Definition plus_one (z : Z) : Z := to_double (z + 1).

(** The same through the executable IEEE-754 specification of the standard
    library ([binary64]: 53 bits of precision, exponents below 1024), to
    compare [plus_one] with. *)
Definition Z2SF (z : Z) : spec_float := binary_normalize 53 1024 z 0 false.

Definition SF2Z (x : spec_float) : option Z :=
  match x with
  | S754_zero _ => Some 0
  | S754_finite s m e =>
      let v := if 0 <=? e then Z.pos m * 2 ^ e else Z.pos m / 2 ^ (- e) in
      Some (if s then - v else v)
  | S754_infinity _ | S754_nan => None
  end.

Definition SFplus_one (z : Z) : option Z :=
  SF2Z (SFadd 53 1024 (Z2SF z) (Z2SF 1)).

(** ** Data model *)

Record Item : Type := mkItem {
  id : Z;
  name : jsval;
  description : jsval
}.

(** The two properties the handlers read from [req.body], which is taken to
    be an object (see the conventions at the top). *)
Record Body : Type := mkBody {
  body_name : option jsval;
  body_description : option jsval
}.

(** What [res.json] is given: an item, an array of items, a string, or an
    object literal built from those. *)
Inductive payload : Type :=
  | PItem (it : Item)
  | PItems (its : list Item)
  | PStr (s : string)
  | PObj (props : list (string * payload)).

Record response : Type := mkResponse {
  status : Z;
  json : payload
}.

(** Property read on a payload object ([None] when the key is missing or the
    payload is not an object literal). *)
Fixpoint assoc (k : string) (props : list (string * payload)) : option payload :=
  match props with
  | [] => None
  | (k', v) :: rest => if String.eqb k k' then Some v else assoc k rest
  end.

Definition prop (k : string) (p : payload) : option payload :=
  match p with
  | PObj props => assoc k props
  | _ => None
  end.

(** ** Array primitives *)

(** [i.id === n]: strict equality of numbers, [NaN] equals nothing. *)
Definition id_is (n : number) (i : Item) : bool :=
  match n with
  | NaN => false
  | Int z => id i =? z
  end.

(** [Array.prototype.findIndex]: the first index whose element satisfies the
    predicate, [-1] when there is none. *)
Fixpoint findIndex {A} (p : A → bool) (l : list A) : Z :=
  match l with
  | [] => -1
  | x :: l' =>
      if p x then 0
      else let r := findIndex p l' in
           if r =? -1 then -1 else r + 1
  end.

(** [Array.prototype.splice(start, deleteCount)] for [0 <= start]: the removed
    elements (the value of the call) and the array that is left. *)
Definition splice {A} (start deleteCount : nat) (l : list A) : list A * list A :=
  (take deleteCount (drop start l),
   take start l ++ drop (start + deleteCount) l).

(** ** The store and the route handlers *)

Definition items0 : list Item :=
  [ mkItem 1 (JStr "Item 1") (JStr "First item");
    mkItem 2 (JStr "Item 2") (JStr "Second item") ].

Definition not_found : response :=
  mkResponse 404 (PObj [("error", PStr "Item not found")]).

Definition name_required : response :=
  mkResponse 400 (PObj [("error", PStr "Name is required")]).

(** Express answers 500 when a handler throws.  With [req.body] an object no
    handler below ever does (see [put_item_never_throws]); the value only
    makes the functions total. *)
Definition threw : response :=
  mkResponse 500 (PObj []).

(** [GET /items] *)
Definition get_items (items : list Item) : list Item * response :=
  (items, mkResponse 200 (PItems items)).

(** [GET /items/:id] *)
Definition get_item (n : number) (items : list Item) : list Item * response :=
  match find (id_is n) items with
  | None => (items, not_found)
  | Some item => (items, mkResponse 200 (PItem item))
  end.

(** The id given to the next item: [items.length ? items[items.length - 1].id + 1 : 1]. *)
Definition next_id (items : list Item) : Z :=
  match last items with
  | Some l => plus_one (id l)
  | None => 1
  end.

(** [POST /items] *)
Definition post_items (b : Body) (items : list Item) : list Item * response :=
  match body_name b with
  | Some nm =>
      if truthy nm then
        let newItem :=
          {| id := next_id items;
             name := nm;
             description := or_else (body_description b) (JStr "") |} in
        (items ++ [newItem], mkResponse 201 (PItem newItem))
      else (items, name_required)
  | None => (items, name_required)
  end.

(** [PUT /items/:id] *)
Definition put_item (n : number) (b : Body) (items : list Item) : list Item * response :=
  let itemIndex := findIndex (id_is n) items in
  if itemIndex =? -1 then (items, not_found)
  else
    match items !! Z.to_nat itemIndex with
    | Some old =>
        let new :=
          {| id := id old;
             name := nullish (body_name b) (name old);
             description := nullish (body_description b) (description old) |} in
        (<[Z.to_nat itemIndex := new]> items, mkResponse 200 (PItem new))
    | None => (items, threw)
    end.

(** [DELETE /items/:id] *)
Definition delete_item (n : number) (items : list Item) : list Item * response :=
  let itemIndex := findIndex (id_is n) items in
  if itemIndex =? -1 then (items, not_found)
  else
    let '(deletedItem, items') := splice (Z.to_nat itemIndex) 1 items in
    (items',
     mkResponse 200
       (PObj [("message", PStr "Item deleted"); ("deletedItem", PItems deletedItem)])).

(** ** Requests and runs of the server *)

Inductive request : Type :=
  | GetItems
  | GetItem (n : number)
  | PostItems (b : Body)
  | PutItem (n : number) (b : Body)
  | DeleteItem (n : number).

Definition handle (r : request) (items : list Item) : list Item * response :=
  match r with
  | GetItems => get_items items
  | GetItem n => get_item n items
  | PostItems b => post_items b items
  | PutItem n b => put_item n b items
  | DeleteItem n => delete_item n items
  end.

(** Requests are served one after the other; the responses are collected in
    the order in which they are sent. *)
Fixpoint run (rs : list request) (items : list Item) : list Item * list response :=
  match rs with
  | [] => (items, [])
  | r :: rs' =>
      let '(items1, resp) := handle r items in
      let '(items2, resps) := run rs' items1 in
      (items2, resp :: resps)
  end.

(** The states the store can be in: the seeded array and whatever the
    handlers turn it into. *)
Inductive reachable : list Item → Prop :=
  | reachable_seed : reachable items0
  | reachable_step r items : reachable items → reachable (handle r items).1.

(** The ids handed out by the successful [POST /items] of a run. *)
Definition created_id (resp : response) : option Z :=
  if status resp =? 201 then
    match json resp with
    | PItem it => Some (id it)
    | _ => None
    end
  else None.

Definition created_ids (resps : list response) : list Z :=
  omap created_id resps.

(** The registry invariant of the data model: no two items share an id. *)
Definition unique_ids (items : list Item) : Prop :=
  NoDup (id <$> items).

(** Ids strictly increase along the array. *)
Definition increasing_ids (items : list Item) : Prop :=
  StronglySorted Z.lt (id <$> items).

(** The order [id + 1] keeps: a later id is greater, or both have reached
    2^53, where adding 1 changes nothing any more. *)
Definition id_order (a b : Z) : Prop :=
  a < b ∨ (a = two_53 ∧ b = two_53).

Definition ordered_ids (items : list Item) : Prop :=
  StronglySorted id_order (id <$> items).

(** The ids on which [id + 1] is the exact sum. *)
Definition exact_id (z : Z) : Prop :=
  - two_53 ≤ z < two_53.

Definition exact_ids (items : list Item) : Prop :=
  ∀ it, it ∈ items → exact_id (id it).

(** The ids a run from the seeded array can produce. *)
Definition ids_in_range (items : list Item) : Prop :=
  Forall (λ z, 1 ≤ z ≤ two_53) (id <$> items).

(** ** Vocabulary of the statements *)

(** No item carries the id [z]. *)
Definition absent (z : Z) (items : list Item) : Prop :=
  ∀ it, it ∈ items → id it ≠ z.

(** A body whose [name] passes the check of [POST /items]. *)
Definition valid_name (b : Body) : Prop :=
  truthy_opt (body_name b) = true.

(** A property of a body that counts as supplied: present and not [null]. *)
Definition supplied (v : option jsval) : Prop :=
  ∃ x, v = Some x ∧ x ≠ JNull.

(** Along a run of the server no id is handed out twice, the ids of the seeded
    items counting as handed out. *)
Definition ids_never_reused (rs : list request) : Prop :=
  NoDup ((id <$> items0) ++ created_ids (run rs items0).2).

(** The values the data model allows for a name. *)
Definition nonempty_text (v : jsval) : Prop :=
  ∃ s, v = JStr s ∧ s ≠ "".

Definition names_nonempty (items : list Item) : Prop :=
  Forall (λ it, nonempty_text (name it)) items.

(** Requests whose body is typed as the data model has it, and that do not
    send the empty text as the new name of an existing item: the name of a
    [POST] is absent or a text, the name of a [PUT] is absent or a non-empty
    text. *)
Definition well_named (r : request) : Prop :=
  match r with
  | PostItems b => ∀ v, body_name b = Some v → ∃ s, v = JStr s
  | PutItem _ b => ∀ v, body_name b = Some v → nonempty_text v
  | _ => True
  end.

(** The number of items a response reports as removed: the length of the
    array under [deletedItem], 0 for every other answer. *)
Definition removed_count (resp : response) : nat :=
  match prop "deletedItem" (json resp) with
  | Some (PItems its) => length its
  | _ => 0%nat
  end.

(** The number of items a response reports as created: 1 for a 201 that
    carries an item, 0 for every other answer. *)
Definition created_count (resp : response) : nat :=
  match created_id resp with
  | Some _ => 1%nat
  | None => 0%nat
  end.

(** Neither field of the item is [null]. *)
Definition fields_defined (it : Item) : Prop :=
  name it ≠ JNull ∧ description it ≠ JNull.

(** Requests other than [DELETE /items/:id]. *)
Definition no_delete (r : request) : Prop :=
  match r with
  | DeleteItem _ => False
  | _ => True
  end.

(** * Properties *)

(** ** The array primitives *)

Section primitives.
Context {A : Type} (p : A → bool).

(** [findIndex] either finds nothing, or returns the position of the first
    element that satisfies the predicate. *)
Lemma findIndex_spec (l : list A) :
  (findIndex p l = -1 ∧ Forall (λ x, p x = false) l) ∨
  (∃ (i : nat) (x : A),
      findIndex p l = Z.of_nat i ∧ l !! i = Some x ∧ p x = true ∧
      Forall (λ y, p y = false) (take i l)).
Proof.
  induction l as [|a l IH]; simpl.
  - left. split; [reflexivity | constructor].
  - destruct (p a) eqn:Hpa.
    + right. exists 0%nat, a. repeat split; done.
    + destruct IH as [[Hm Hall] | (i & x & Hi & Hx & Hpx & Hall)].
      * left. rewrite Hm. simpl. split; [reflexivity | by constructor].
      * right. exists (S i), x. rewrite Hi.
        replace (Z.of_nat i =? -1) with false by (symmetry; apply Z.eqb_neq; lia).
        repeat split; try done; [lia | by constructor].
Qed.

Lemma findIndex_none (l : list A) :
  findIndex p l = -1 ↔ Forall (λ x, p x = false) l.
Proof.
  split.
  - intros Hm. destruct (findIndex_spec l) as [[_ H] | (i & x & Hi & _)]; [done | lia].
  - intros Hall. destruct (findIndex_spec l) as [[H _] | (i & x & Hi & Hx & Hpx & _)]; [done |].
    apply list_elem_of_lookup_2 in Hx.
    rewrite Forall_forall in Hall. specialize (Hall x Hx). congruence.
Qed.

Lemma findIndex_range (l : list A) :
  -1 ≤ findIndex p l < Z.of_nat (length l).
Proof.
  destruct (findIndex_spec l) as [[H _] | (i & x & Hi & Hx & _)].
  - lia.
  - apply lookup_lt_Some in Hx. lia.
Qed.

(** The first position of a satisfying element is what [findIndex] returns. *)
Lemma findIndex_first (l : list A) (i : nat) (x : A) :
  l !! i = Some x → p x = true →
  Forall (λ y, p y = false) (take i l) →
  findIndex p l = Z.of_nat i.
Proof.
  intros Hx Hpx Hbefore.
  destruct (findIndex_spec l) as [[_ Hall] | (j & y & Hj & Hy & Hpy & Hall)].
  - apply list_elem_of_lookup_2 in Hx.
    rewrite Forall_forall in Hall. specialize (Hall x Hx). congruence.
  - rewrite Hj. f_equal.
    destruct (Nat.lt_trichotomy i j) as [Hlt | [-> | Hgt]]; [| done |].
    + assert (take j l !! i = Some x) as Hin by (by rewrite lookup_take_lt).
      apply list_elem_of_lookup_2 in Hin.
      rewrite Forall_forall in Hall. specialize (Hall x Hin). congruence.
    + assert (take i l !! j = Some y) as Hin by (by rewrite lookup_take_lt).
      apply list_elem_of_lookup_2 in Hin.
      rewrite Forall_forall in Hbefore. specialize (Hbefore y Hin). congruence.
Qed.

(** [find] and [findIndex] agree: [find] returns the element at the index. *)
Lemma find_findIndex (l : list A) :
  find p l =
    if findIndex p l =? -1 then None else l !! Z.to_nat (findIndex p l).
Proof.
  induction l as [|a l IH]; simpl; [done |].
  destruct (p a); [done |]. rewrite IH.
  pose proof (findIndex_range l) as Hr.
  destruct (findIndex p l =? -1) eqn:Hm; simpl; [done |].
  apply Z.eqb_neq in Hm.
  replace (findIndex p l + 1 =? -1) with false by (symmetry; apply Z.eqb_neq; lia).
  replace (Z.to_nat (findIndex p l + 1)) with (S (Z.to_nat (findIndex p l))) by lia.
  done.
Qed.

(** [splice(i, 1)] inside the array takes out exactly the element at [i]. *)
Lemma splice_one (l : list A) (i : nat) (x : A) :
  l !! i = Some x → splice i 1 l = ([x], delete i l).
Proof.
  intros Hx. unfold splice. f_equal.
  - rewrite (drop_S _ _ _ Hx). simpl. by rewrite take_0.
  - rewrite delete_take_drop. by replace (i + 1)%nat with (S i) by lia.
Qed.
End primitives.

(** ** Looking an item up by id *)

Lemma id_is_Int (z : Z) (it : Item) : id_is (Int z) it = true ↔ id it = z.
Proof. simpl. apply Z.eqb_eq. Qed.

Lemma id_is_Int_false (z : Z) (it : Item) : id_is (Int z) it = false ↔ id it ≠ z.
Proof. simpl. apply Z.eqb_neq. Qed.

Lemma findIndex_absent (z : Z) (items : list Item) :
  absent z items → findIndex (id_is (Int z)) items = -1.
Proof.
  intros Habs. apply findIndex_none, Forall_forall.
  intros it Hin. apply id_is_Int_false. by apply Habs.
Qed.

(** With pairwise distinct ids, the scan stops exactly at the item. *)
Lemma findIndex_unique (items : list Item) (i : nat) (it : Item) :
  unique_ids items → items !! i = Some it →
  findIndex (id_is (Int (id it))) items = Z.of_nat i.
Proof.
  intros Hnd Hit.
  apply findIndex_first with (x := it); [done | by apply id_is_Int |].
  apply Forall_forall. intros y Hy.
  apply list_elem_of_lookup_1 in Hy as [j Hj].
  apply lookup_take_Some in Hj as [Hj Hlt].
  apply id_is_Int_false. intros Heq.
  assert (j = i) as ->; [| lia].
  apply (NoDup_lookup _ _ _ (id it) Hnd); rewrite list_lookup_fmap.
  - rewrite Hj. simpl. by rewrite Heq.
  - by rewrite Hit.
Qed.

(** ** What each handler does once the scan has been resolved *)

Lemma put_item_at (n : number) (b : Body) (items : list Item) (i : nat) (old : Item) :
  findIndex (id_is n) items = Z.of_nat i → items !! i = Some old →
  let new := {| id := id old;
                name := nullish (body_name b) (name old);
                description := nullish (body_description b) (description old) |} in
  put_item n b items = (<[i := new]> items, mkResponse 200 (PItem new)).
Proof.
  intros Hi Hold. unfold put_item. rewrite Hi.
  replace (Z.of_nat i =? -1) with false by (symmetry; apply Z.eqb_neq; lia).
  by rewrite Nat2Z.id, Hold.
Qed.

Lemma delete_item_at (n : number) (items : list Item) (i : nat) (it : Item) :
  findIndex (id_is n) items = Z.of_nat i → items !! i = Some it →
  delete_item n items =
    (delete i items,
     mkResponse 200
       (PObj [("message", PStr "Item deleted"); ("deletedItem", PItems [it])])).
Proof.
  intros Hi Hit. unfold delete_item. rewrite Hi.
  replace (Z.of_nat i =? -1) with false by (symmetry; apply Z.eqb_neq; lia).
  by rewrite Nat2Z.id, (splice_one _ _ _ Hit).
Qed.

(** The index that [findIndex] returns is always inside the array, so reading
    [items[itemIndex]] in the [PUT] handler never throws. *)
Lemma put_item_never_throws (n : number) (b : Body) (items : list Item) :
  (put_item n b items).2 ≠ threw.
Proof.
  destruct (findIndex_spec (id_is n) items) as [[Hm _] | (i & x & Hi & Hx & _)].
  - unfold put_item. rewrite Hm. simpl. discriminate.
  - rewrite (put_item_at _ _ _ _ _ Hi Hx). simpl. discriminate.
Qed.

(** ** The ids along the array *)

Lemma increasing_unique (items : list Item) :
  increasing_ids items → unique_ids items.
Proof.
  unfold increasing_ids, unique_ids.
  induction (id <$> items) as [|z zs IH]; intros Hs; [constructor |].
  apply StronglySorted_cons in Hs as [Hall Hs].
  constructor; [| by apply IH].
  intros Hin. rewrite Forall_forall in Hall. specialize (Hall z Hin). lia.
Qed.

(** In an increasing array the last item has the greatest id. *)
Lemma increasing_last_max (items : list Item) (l : Item) :
  increasing_ids items → last items = Some l →
  ∀ it, it ∈ items → id it ≤ id l.
Proof.
  intros Hs Hlast it Hin.
  apply last_Some in Hlast as [items' ->].
  apply elem_of_app in Hin as [Hin | Hin].
  - unfold increasing_ids in Hs. rewrite fmap_app in Hs.
    apply Z.lt_le_incl.
    apply (StronglySorted_app_1_elem_of _ _ _ _ _ Hs).
    + by apply list_elem_of_fmap_2.
    + simpl. apply list_elem_of_singleton. reflexivity.
  - apply list_elem_of_singleton in Hin as ->. lia.
Qed.

(** *** Adding 1 to an id *)

Lemma plus_one_exact (z : Z) : exact_id z → plus_one z = z + 1.
Proof.
  unfold exact_id, plus_one, to_double, two_53. intros Hz.
  replace (Z.abs (z + 1) <=? 9007199254740992) with true; [done |].
  symmetry. apply Z.leb_le. lia.
Qed.

(** At 2^53 the sum is halfway between two doubles and goes back to 2^53. *)
Lemma plus_one_two_53 : plus_one two_53 = two_53.
Proof. reflexivity. Qed.

(** [plus_one] and the addition of the standard library's IEEE-754
    specification give the same double, on integers below, at and above 2^53,
    of both signs, ties and non-ties. *)
Example plus_one_is_double_addition :
  let samples :=
    [ 0; 1; 2; 41; -1; -2; two_53 - 2; two_53 - 1; two_53; two_53 + 2;
      two_53 + 4; two_53 + 6; 2 * two_53 - 2; 2 * two_53; 2 * two_53 + 4;
      2 * two_53 + 8; 4 * two_53 - 4; 4 * two_53 - 8; 2 ^ 60; 2 ^ 60 + 2 ^ 8;
      2 ^ 100 + 2 ^ 48; 2 ^ 1023;
      - two_53 + 1; - two_53; - two_53 - 2; - two_53 - 4; - 2 * two_53;
      - 2 * two_53 - 4; - 4 * two_53 + 4; - 4 * two_53; - 2 ^ 60 ] in
  Forall (λ z, SFplus_one z = Some (plus_one z)) samples.
Proof. repeat constructor. Qed.

Lemma plus_one_in_range (z : Z) :
  1 ≤ z ≤ two_53 → 1 ≤ plus_one z ≤ two_53 ∧ id_order z (plus_one z).
Proof.
  intros Hz. destruct (decide (z = two_53)) as [-> | Hne].
  - rewrite plus_one_two_53. split; [done | by right].
  - rewrite plus_one_exact by (unfold exact_id, two_53 in *; lia).
    split; [lia | left; lia].
Qed.

(** The id given to a new item is above every id of an increasing array, as
    long as adding 1 is exact on its ids. *)
Lemma next_id_above (items : list Item) (it : Item) :
  increasing_ids items → exact_ids items → it ∈ items → id it < next_id items.
Proof.
  intros Hs Hex Hin. unfold next_id.
  destruct (last items) as [l|] eqn:Hlast.
  - pose proof (increasing_last_max _ _ Hs Hlast it Hin).
    rewrite plus_one_exact by (by apply Hex, last_Some_elem_of). lia.
  - apply last_None in Hlast as ->. by apply not_elem_of_nil in Hin.
Qed.

Lemma post_items_increasing (b : Body) (items : list Item) :
  increasing_ids items → exact_ids items → increasing_ids (post_items b items).1.
Proof.
  intros Hs Hex. unfold post_items.
  destruct (body_name b) as [nm|]; [| done].
  destruct (truthy nm); [| done]. simpl.
  unfold increasing_ids. rewrite fmap_app. apply StronglySorted_app_2.
  - intros x1 x2 H1 H2. simpl in H2.
    apply list_elem_of_singleton in H2 as ->.
    apply list_elem_of_fmap in H1 as (it & -> & Hin).
    by apply next_id_above.
  - done.
  - simpl. repeat constructor.
Qed.

(** [PUT] keeps the id of every position. *)
Lemma put_item_ids (n : number) (b : Body) (items : list Item) :
  id <$> (put_item n b items).1 = id <$> items.
Proof.
  destruct (findIndex_spec (id_is n) items) as [[Hm _] | (i & x & Hi & Hx & _)].
  - unfold put_item. by rewrite Hm.
  - rewrite (put_item_at _ _ _ _ _ Hi Hx). simpl.
    rewrite list_fmap_insert. simpl.
    apply list_insert_id. by rewrite list_lookup_fmap, Hx.
Qed.

(** [DELETE] leaves a sub-sequence of the array. *)
Lemma delete_item_sublist (n : number) (items : list Item) :
  (delete_item n items).1 `sublist_of` items.
Proof.
  destruct (findIndex_spec (id_is n) items) as [[Hm _] | (i & x & Hi & Hx & _)].
  - unfold delete_item. by rewrite Hm.
  - rewrite (delete_item_at _ _ _ _ Hi Hx). simpl. apply sublist_delete.
Qed.

Lemma StronglySorted_sublist {A} (R : relation A) (l1 l2 : list A) :
  l1 `sublist_of` l2 → StronglySorted R l2 → StronglySorted R l1.
Proof.
  induction 1 as [| x l1 l2 Hsub IH | x l1 l2 Hsub IH]; intros Hs; [done | |].
  - apply StronglySorted_cons in Hs as [Hall Hs].
    apply StronglySorted_cons. split; [| by apply IH].
    rewrite Forall_forall in *. intros y Hy. apply Hall.
    by eapply elem_of_sublist.
  - apply StronglySorted_cons in Hs as [_ Hs]. by apply IH.
Qed.

Lemma Forall_sublist {A} (P : A → Prop) (l1 l2 : list A) :
  l1 `sublist_of` l2 → Forall P l2 → Forall P l1.
Proof.
  intros Hsub Hall. rewrite Forall_forall in *.
  intros x Hx. apply Hall. by eapply elem_of_sublist.
Qed.

Lemma items0_increasing : increasing_ids items0.
Proof. unfold increasing_ids. simpl. repeat constructor; lia. Qed.

Lemma items0_unique : unique_ids items0.
Proof. apply increasing_unique, items0_increasing. Qed.

(** *** The order of the ids in the reachable states *)

Lemma id_order_le (a b : Z) : id_order a b → a ≤ b.
Proof. intros [Hlt | [-> ->]]; lia. Qed.

(** In an ordered array the last item has the greatest id. *)
Lemma ordered_last_max (items : list Item) (l : Item) :
  ordered_ids items → last items = Some l →
  ∀ it, it ∈ items → id it ≤ id l.
Proof.
  intros Hs Hlast it Hin.
  apply last_Some in Hlast as [items' ->].
  apply elem_of_app in Hin as [Hin | Hin].
  - unfold ordered_ids in Hs. rewrite fmap_app in Hs.
    apply id_order_le.
    apply (StronglySorted_app_1_elem_of _ _ _ _ _ Hs).
    + by apply list_elem_of_fmap_2.
    + simpl. apply list_elem_of_singleton. reflexivity.
  - apply list_elem_of_singleton in Hin as ->. lia.
Qed.

Lemma ids_in_range_elem (items : list Item) (it : Item) :
  ids_in_range items → it ∈ items → 1 ≤ id it ≤ two_53.
Proof.
  unfold ids_in_range. rewrite Forall_fmap, Forall_forall.
  intros Hall Hin. by apply Hall.
Qed.

Lemma next_id_in_range (items : list Item) :
  ids_in_range items → 1 ≤ next_id items ≤ two_53.
Proof.
  intros Hr. unfold next_id. destruct (last items) as [l|] eqn:Hl.
  - apply plus_one_in_range, (ids_in_range_elem items); [done |].
    by apply last_Some_elem_of.
  - unfold two_53. lia.
Qed.

(** The id given to a new item comes after every id of the array in the
    order of the ids. *)
Lemma next_id_order (items : list Item) (it : Item) :
  ids_in_range items → ordered_ids items → it ∈ items →
  id_order (id it) (next_id items).
Proof.
  intros Hr Hs Hin. unfold next_id.
  destruct (last items) as [l|] eqn:Hl.
  - pose proof (ordered_last_max _ _ Hs Hl it Hin) as Hle.
    pose proof (ids_in_range_elem _ _ Hr (last_Some_elem_of _ _ Hl)) as Hrl.
    destruct (plus_one_in_range _ Hrl) as [_ [Hlt | [H1 H2]]].
    + left. lia.
    + rewrite H2. destruct (decide (id it = two_53)) as [-> | Hne];
        [by right | left; lia].
  - apply last_None in Hl as ->. by apply not_elem_of_nil in Hin.
Qed.

Lemma handle_ordered (r : request) (items : list Item) :
  ids_in_range items → ordered_ids items →
  ids_in_range (handle r items).1 ∧ ordered_ids (handle r items).1.
Proof.
  intros Hr Hs. destruct r as [| n | b | n b | n]; simpl.
  - done.
  - unfold get_item. by destruct (find _ _).
  - unfold post_items.
    destruct (body_name b) as [nm|]; [| done].
    destruct (truthy nm); [| done]. simpl.
    unfold ids_in_range, ordered_ids. rewrite fmap_app. simpl. split.
    + apply Forall_app_2; [done |]. apply Forall_singleton.
      by apply next_id_in_range.
    + apply StronglySorted_app_2; [| done | repeat constructor].
      intros x1 x2 H1 H2.
      apply list_elem_of_singleton in H2 as ->.
      apply list_elem_of_fmap in H1 as (it & -> & Hin).
      by apply next_id_order.
  - unfold ids_in_range, ordered_ids. by rewrite put_item_ids.
  - pose proof (fmap_sublist id _ _ (delete_item_sublist n items)) as Hsub.
    split.
    + by apply (Forall_sublist _ _ _ Hsub).
    + by apply (StronglySorted_sublist _ _ _ Hsub).
Qed.

Lemma reachable_ordered (items : list Item) :
  reachable items → ids_in_range items ∧ ordered_ids items.
Proof.
  induction 1 as [| r items _ [Hr Hs]]; [| by apply handle_ordered].
  split.
  - repeat constructor; simpl; unfold two_53; lia.
  - unfold ordered_ids. simpl. repeat constructor.
Qed.

(** Below 2^53 the order of the ids is the strict one. *)
Lemma ordered_increasing (items : list Item) :
  ordered_ids items → (∀ it, it ∈ items → id it < two_53) → increasing_ids items.
Proof.
  unfold ordered_ids, increasing_ids. intros Hs Hlt.
  assert (Forall (λ z, z < two_53) (id <$> items)) as Hall.
  { apply Forall_fmap, Forall_forall. intros it Hin. by apply Hlt. }
  clear Hlt. induction Hs as [| z zs Hs IH Hz]; [constructor |].
  apply Forall_cons in Hall as [Hzlt Hall].
  constructor; [by apply IH |].
  eapply Forall_impl; [exact Hz |]. simpl.
  intros y [Hy | [-> _]]; [done | lia].
Qed.

Lemma reachable_exact (items : list Item) :
  reachable items → (∀ it, it ∈ items → id it < two_53) → exact_ids items.
Proof.
  intros Hr Hlt it Hin.
  destruct (reachable_ordered _ Hr) as [Hrange _].
  pose proof (ids_in_range_elem _ _ Hrange Hin).
  specialize (Hlt it Hin). unfold exact_id, two_53 in *. lia.
Qed.

Lemma reachable_increasing (items : list Item) :
  reachable items → (∀ it, it ∈ items → id it < two_53) → increasing_ids items.
Proof.
  intros Hr Hlt. apply ordered_increasing; [| done].
  by apply reachable_ordered.
Qed.

Lemma StronglySorted_lookup {A} (R : relation A) (l : list A) (i j : nat) (a b : A) :
  StronglySorted R l → (i < j)%nat → l !! i = Some a → l !! j = Some b → R a b.
Proof.
  intros Hs. revert i j.
  induction Hs as [| x l Hs IH Hall]; intros i j Hlt Ha Hb; [done |].
  destruct j as [|j]; [lia |]. simpl in Hb.
  destruct i as [|i]; simpl in Ha.
  - injection Ha as <-. rewrite Forall_forall in Hall.
    apply Hall. by eapply list_elem_of_lookup_2.
  - apply (IH i j); [lia | done | done].
Qed.

Lemma run_reachable (rs : list request) (items : list Item) :
  reachable items → reachable (run rs items).1.
Proof.
  revert items. induction rs as [|r rs IH]; intros items Hr; simpl; [done |].
  pose proof (reachable_step r items Hr) as Hstep.
  destruct (handle r items) as [items1 resp]; simpl in Hstep.
  specialize (IH items1 Hstep).
  by destruct (run rs items1) as [items2 resps].
Qed.

Lemma run_cons (r : request) (rs : list request) (items : list Item) :
  run (r :: rs) items =
    ((run rs (handle r items).1).1,
     (handle r items).2 :: (run rs (handle r items).1).2).
Proof.
  simpl. destruct (handle r items) as [items1 resp]. simpl.
  by destruct (run rs items1).
Qed.

(** ** The ids of the registry (C10, C1) *)

(** Every id from 3 to 2^53 is the id of the only item of some reachable
    state: create an item, then delete the one before it, and so on. *)
Lemma reachable_single (k : Z) :
  3 ≤ k ≤ two_53 → reachable [mkItem k (JStr "x") (JStr "")].
Proof.
  intros Hk.
  assert (∀ n : nat, 3 + Z.of_nat n ≤ two_53 →
            reachable [mkItem (3 + Z.of_nat n) (JStr "x") (JStr "")]) as Hn.
  { induction n as [|n IH]; intros Hle.
    - exact (run_reachable
               [ PostItems (mkBody (Some (JStr "x")) None);
                 DeleteItem (Int 1); DeleteItem (Int 2) ]
               items0 reachable_seed).
    - assert (3 + Z.of_nat n ≤ two_53) as Hle' by lia.
      specialize (IH Hle').
      set (k' := 3 + Z.of_nat n) in *.
      pose proof (reachable_step (PostItems (mkBody (Some (JStr "x")) None)) _ IH) as H1.
      change (reachable [mkItem k' (JStr "x") (JStr "");
                         mkItem (plus_one k') (JStr "x") (JStr "")]) in H1.
      rewrite plus_one_exact in H1 by (unfold exact_id, two_53 in *; lia).
      pose proof (reachable_step (DeleteItem (Int k')) _ H1) as H2.
      cbn [handle] in H2.
      rewrite (delete_item_at _ _ 0 (mkItem k' (JStr "x") (JStr ""))) in H2.
      + cbn [fst] in H2. simpl in H2.
        by replace (3 + Z.of_nat (S n)) with (k' + 1) by lia.
      + apply (findIndex_first _ _ 0 (mkItem k' (JStr "x") (JStr "")));
          [done | by apply id_is_Int | constructor].
      + done. }
  specialize (Hn (Z.to_nat (k - 3))).
  replace (3 + Z.of_nat (Z.to_nat (k - 3))) with k in Hn by lia.
  apply Hn. lia.
Qed.

(** C10 fails at 2^53: the state whose only item has id 2^53 is reachable, and
    the [POST] that follows hands out 2^53 again. *)
Lemma reachable_ids_repeat_at_two_53 :
  let items := [ mkItem two_53 (JStr "x") (JStr "");
                 mkItem two_53 (JStr "x") (JStr "") ] in
  reachable items ∧ ¬ increasing_ids items ∧ ¬ unique_ids items.
Proof.
  intros items. split; [| split].
  - assert (3 ≤ two_53 ≤ two_53) as Hk by (unfold two_53; lia).
    exact (reachable_step (PostItems (mkBody (Some (JStr "x")) None)) _
             (reachable_single two_53 Hk)).
  - intros Hs. apply increasing_unique in Hs.
    apply NoDup_cons in Hs as [Hin _]. apply Hin. left.
  - intros Hs. apply NoDup_cons in Hs as [Hin _]. apply Hin. left.
Qed.

(** C10, amended: in every state reachable from the seeded array the ids never
    decrease along the array, so the last item carries the greatest id; below
    2^53 they strictly increase, so two items have distinct ids unless both
    ids are 2^53. *)
Theorem reachable_ids_ordered (items : list Item) :
  reachable items →
  (∀ (i j : nat) (a b : Item),
      (i < j)%nat → items !! i = Some a → items !! j = Some b →
      id a < id b ∨ (id a = two_53 ∧ id b = two_53)) ∧
  (∀ (i j : nat) (a b : Item),
      i ≠ j → items !! i = Some a → items !! j = Some b →
      id a ≠ id b ∨ (id a = two_53 ∧ id b = two_53)) ∧
  (∀ l, last items = Some l → ∀ it, it ∈ items → id it ≤ id l).
Proof.
  intros Hr. destruct (reachable_ordered _ Hr) as [_ Hs].
  assert (∀ (i j : nat) (a b : Item),
      (i < j)%nat → items !! i = Some a → items !! j = Some b →
      id_order (id a) (id b)) as Hlt.
  { intros i j a b Hij Ha Hb.
    apply (StronglySorted_lookup id_order (id <$> items) i j); [done | done | |];
      rewrite list_lookup_fmap; [by rewrite Ha | by rewrite Hb]. }
  split; [exact Hlt |]. split.
  - intros i j a b Hne Ha Hb.
    destruct (Nat.lt_total i j) as [Hij | [-> | Hji]]; [| done |].
    + destruct (Hlt i j a b Hij Ha Hb) as [H | H]; [left; lia | by right].
    + destruct (Hlt j i b a Hji Hb Ha) as [H | [H1 H2]]; [left; lia | by right].
  - intros l Hlast. by apply ordered_last_max.
Qed.

(** The store after [POST {name: "Item 3"}] and [DELETE /items/1]. *)
Lemma reachable_ids_ordered_witness :
  let items := [ mkItem 2 (JStr "Item 2") (JStr "Second item");
                 mkItem 3 (JStr "Item 3") (JStr "") ] in
  reachable items ∧
  (∀ (i j : nat) (a b : Item),
      (i < j)%nat → items !! i = Some a → items !! j = Some b →
      id a < id b ∨ (id a = two_53 ∧ id b = two_53)) ∧
  (∀ (i j : nat) (a b : Item),
      i ≠ j → items !! i = Some a → items !! j = Some b →
      id a ≠ id b ∨ (id a = two_53 ∧ id b = two_53)) ∧
  (∀ l, last items = Some l → ∀ it, it ∈ items → id it ≤ id l).
Proof.
  intros items.
  assert (reachable items) as Hr.
  { exact (run_reachable
             [PostItems (mkBody (Some (JStr "Item 3")) None); DeleteItem (Int 1)]
             items0 reachable_seed). }
  split; [exact Hr | exact (reachable_ids_ordered items Hr)].
Defined.

(** C1 as the data model words it fails: create an item (it gets id 3), delete it, create another one;
    the second item gets id 3 again. *)
Lemma ids_reused_after_delete :
  let rs := [ PostItems (mkBody (Some (JStr "A")) None);
              DeleteItem (Int 3);
              PostItems (mkBody (Some (JStr "B")) None) ] in
  created_ids (run rs items0).2 = [3; 3] ∧ ¬ ids_never_reused rs.
Proof.
  split; [reflexivity |].
  unfold ids_never_reused. vm_compute.
  intros Hnd.
  apply NoDup_cons in Hnd as [_ Hnd]. apply NoDup_cons in Hnd as [_ Hnd].
  apply NoDup_cons in Hnd as [Hin _]. apply Hin. left.
Qed.

(** C1, amended: in every reachable state whose ids are all below 2^53 the
    ids present are pairwise distinct, and a successful [POST] gives the new
    item an id that is greater than (so different from) the id of every item
    present at that moment and keeps the ids pairwise distinct. *)
Theorem post_items_id_fresh (items : list Item) (b : Body) :
  reachable items → valid_name b → (∀ it, it ∈ items → id it < two_53) →
  unique_ids items ∧
  ∃ newItem,
    post_items b items = (items ++ [newItem], mkResponse 201 (PItem newItem)) ∧
    (∀ it, it ∈ items → id it < id newItem) ∧
    unique_ids (items ++ [newItem]).
Proof.
  unfold valid_name. intros Hr Hname Hlt.
  pose proof (reachable_increasing _ Hr Hlt) as Hs.
  pose proof (reachable_exact _ Hr Hlt) as Hex.
  split; [by apply increasing_unique |].
  pose proof (post_items_increasing b items Hs Hex) as Hs'.
  unfold post_items in *.
  destruct (body_name b) as [nm|]; [| done]. simpl in Hname.
  rewrite Hname in *. simpl in Hs'.
  eexists. split; [reflexivity |]. split.
  - intros it Hin. simpl. by apply next_id_above.
  - by apply increasing_unique.
Qed.

Lemma post_items_id_fresh_witness :
  let items := [ mkItem 2 (JStr "Item 2") (JStr "Second item");
                 mkItem 3 (JStr "Item 3") (JStr "") ] in
  let b := mkBody (Some (JStr "Item 4")) None in
  (reachable items ∧ valid_name b ∧ ∀ it, it ∈ items → id it < two_53) ∧
  unique_ids items ∧
  ∃ newItem,
    post_items b items = (items ++ [newItem], mkResponse 201 (PItem newItem)) ∧
    (∀ it, it ∈ items → id it < id newItem) ∧
    unique_ids (items ++ [newItem]).
Proof.
  intros items b.
  assert (reachable items) as Hr.
  { exact (run_reachable
             [PostItems (mkBody (Some (JStr "Item 3")) None); DeleteItem (Int 1)]
             items0 reachable_seed). }
  assert (∀ it, it ∈ items → id it < two_53) as Hlt.
  { intros it Hin. unfold items in Hin.
    apply elem_of_cons in Hin as [-> | Hin]; [done |].
    by apply list_elem_of_singleton in Hin as ->. }
  split; [split; [exact Hr | split; [reflexivity | exact Hlt]] |].
  exact (post_items_id_fresh items b Hr eq_refl Hlt).
Defined.

(** ** Creating an item (C4, C5, C8) *)

Lemma truthy_text (s : string) : truthy (JStr s) = true ↔ s ≠ "".
Proof.
  simpl. rewrite negb_true_iff. split.
  - intros Hf ->. by rewrite String.eqb_refl in Hf.
  - intros Hne. by apply String.eqb_neq.
Qed.

(** C4 fails at 2^53: on an array whose last id is 2^53 the new item gets the
    id 2^53 again, not 2^53 + 1. *)
Lemma post_items_id_not_successor :
  let l := mkItem two_53 (JStr "x") (JStr "") in
  let newItem := mkItem two_53 (JStr "y") (JStr "") in
  post_items (mkBody (Some (JStr "y")) None) [l] =
    ([l; newItem], mkResponse 201 (PItem newItem)) ∧
  id newItem ≠ id l + 1.
Proof. split; [reflexivity | done]. Qed.

(** C4, amended: with a truthy [name] (any non-empty text is one),
    [POST /items] appends one item at the end of the array and answers 201
    with that item.  The item has the given name, the given description or the
    empty text when there is none; its id is 1 on the empty array, and one
    more than the id of the item at the last index when that id is at least
    -2^53 and below 2^53. *)
Theorem post_items_creates (items : list Item) (nm : jsval) (d : option string) :
  truthy nm = true →
  ∃ newItem,
    post_items (mkBody (Some nm) (JStr <$> d)) items =
      (items ++ [newItem], mkResponse 201 (PItem newItem)) ∧
    name newItem = nm ∧
    description newItem = JStr (default "" d) ∧
    (items = [] → id newItem = 1) ∧
    (∀ l, items !! (length items - 1)%nat = Some l →
          - two_53 ≤ id l < two_53 → id newItem = id l + 1).
Proof.
  intros Hnm. unfold post_items. simpl. rewrite Hnm.
  eexists. split; [reflexivity |]. simpl. repeat split.
  - destruct d as [s|]; simpl; [| done].
    destruct (String.eqb s "") eqn:Hs; simpl; [| done].
    by apply String.eqb_eq in Hs as ->.
  - by intros ->.
  - intros l Hl Hex. unfold next_id.
    rewrite last_lookup.
    replace (pred (length items)) with (length items - 1)%nat by lia.
    rewrite Hl. by apply plus_one_exact.
Qed.

Lemma post_items_creates_witness :
  truthy (JStr "Item 3") = true ∧
  ∃ newItem,
    post_items (mkBody (Some (JStr "Item 3")) (JStr <$> None)) items0 =
      (items0 ++ [newItem], mkResponse 201 (PItem newItem)) ∧
    name newItem = JStr "Item 3" ∧
    description newItem = JStr (default "" None) ∧
    (items0 = [] → id newItem = 1) ∧
    (∀ l, items0 !! (length items0 - 1)%nat = Some l →
          - two_53 ≤ id l < two_53 → id newItem = id l + 1).
Proof.
  split; [reflexivity |].
  apply (post_items_creates items0 (JStr "Item 3") None). reflexivity.
Defined.

(** C5: without a [name], or with the empty text as [name], [POST /items]
    answers 400 [{error: "Name is required"}] and the array is left as it
    was. *)
Theorem post_items_name_required (items : list Item) (b : Body) :
  body_name b = None ∨ body_name b = Some (JStr "") →
  post_items b items =
    (items, mkResponse 400 (PObj [("error", PStr "Name is required")])).
Proof. intros [Hb | Hb]; unfold post_items; by rewrite Hb. Qed.

Lemma post_items_name_required_witness :
  let b := mkBody (Some (JStr "")) (Some (JStr "no name")) in
  (body_name b = None ∨ body_name b = Some (JStr "")) ∧
  post_items b items0 =
    (items0, mkResponse 400 (PObj [("error", PStr "Name is required")])).
Proof.
  intros b. split; [by right |].
  apply (post_items_name_required items0 b). by right.
Defined.

(** ** Requests for an id that is not there (C6) *)

(** C6: when no item has the id, [GET], [PUT] and [DELETE] on [/items/:id]
    all answer 404 [{error: "Item not found"}] and leave the array as it
    was. *)
Theorem missing_id_not_found (items : list Item) (z : Z) (b : Body) :
  absent z items →
  let resp := mkResponse 404 (PObj [("error", PStr "Item not found")]) in
  get_item (Int z) items = (items, resp) ∧
  put_item (Int z) b items = (items, resp) ∧
  delete_item (Int z) items = (items, resp).
Proof.
  intros Habs resp. apply findIndex_absent in Habs.
  unfold get_item, put_item, delete_item.
  rewrite find_findIndex, Habs. by simpl.
Qed.

Lemma missing_id_not_found_witness :
  let b := mkBody (Some (JStr "x")) None in
  let resp := mkResponse 404 (PObj [("error", PStr "Item not found")]) in
  absent 7 items0 ∧
  get_item (Int 7) items0 = (items0, resp) ∧
  put_item (Int 7) b items0 = (items0, resp) ∧
  delete_item (Int 7) items0 = (items0, resp).
Proof.
  intros b resp.
  assert (absent 7 items0) as Habs.
  { intros it Hin. unfold items0 in Hin.
    apply elem_of_cons in Hin as [-> | Hin]; [simpl; lia |].
    apply list_elem_of_singleton in Hin as ->. simpl; lia. }
  split; [exact Habs | exact (missing_id_not_found items0 7 b Habs)].
Defined.

(** A path parameter that does not parse to a number matches no item. *)
Lemma nan_not_found (items : list Item) (b : Body) :
  get_item NaN items = (items, not_found) ∧
  put_item NaN b items = (items, not_found) ∧
  delete_item NaN items = (items, not_found).
Proof.
  assert (findIndex (id_is NaN) items = -1) as Hm.
  { apply findIndex_none, Forall_forall. by intros. }
  unfold get_item, put_item, delete_item.
  by rewrite find_findIndex, Hm.
Qed.

(** ** Updating an item (C7) *)


Lemma nullish_not_supplied (v : option jsval) (d : jsval) :
  ¬ supplied v → nullish v d = d.
Proof.
  intros Hn. destruct v as [x|]; [| done].
  destruct x; try done; exfalso; apply Hn; eexists; split; done.
Qed.



(** ** Deleting an item (C9, C2) *)




(** ** Runs of creations (C8) *)

Lemma post_items_valid (items : list Item) (b : Body) :
  valid_name b →
  ∃ newItem,
    post_items b items = (items ++ [newItem], mkResponse 201 (PItem newItem)) ∧
    id newItem = next_id items.
Proof.
  unfold valid_name, post_items. intros Hv.
  destruct (body_name b) as [nm|]; [| done]. simpl in Hv. rewrite Hv.
  by eexists.
Qed.

Lemma next_id_snoc (items : list Item) (it : Item) :
  next_id (items ++ [it]) = plus_one (id it).
Proof. unfold next_id. by rewrite last_snoc. Qed.

Lemma plus_one_step (z : Z) :
  - two_53 ≤ z ≤ two_53 →
  - two_53 < plus_one z ≤ two_53 ∧ id_order z (plus_one z).
Proof.
  intros Hz. destruct (decide (z = two_53)) as [-> | Hne].
  - rewrite plus_one_two_53. split; [done | by right].
  - rewrite plus_one_exact by (unfold exact_id, two_53 in *; lia).
    split; [lia | left; lia].
Qed.

Lemma next_id_bounds (items : list Item) :
  (∀ l, last items = Some l → - two_53 ≤ id l ≤ two_53) →
  - two_53 < next_id items ≤ two_53.
Proof.
  intros Hl. unfold next_id. destruct (last items) as [l|].
  - by apply plus_one_step, Hl.
  - done.
Qed.

(** A run of valid creations hands out one id per request, each after the
    previous one in the order of the ids, starting with the id that is next
    for the initial array. *)
Lemma creations_ids (bs : list Body) (items : list Item) :
  Forall valid_name bs →
  - two_53 < next_id items ≤ two_53 →
  let ids := created_ids (run (PostItems <$> bs) items).2 in
  length ids = length bs ∧
  StronglySorted id_order ids ∧
  Forall (λ z, next_id items ≤ z ≤ two_53) ids.
Proof.
  revert items. induction bs as [|b bs IH]; intros items Hall Hn ids.
  - repeat split; constructor.
  - apply Forall_cons in Hall as [Hb Hall].
    destruct (post_items_valid items b Hb) as (newItem & Hpost & Hid).
    assert (- two_53 ≤ next_id items ≤ two_53) as Hn' by lia.
    destruct (plus_one_step _ Hn') as [Hstep Hord].
    destruct (IH (items ++ [newItem]) Hall) as (Hlen & Hs & Hge);
      [by rewrite next_id_snoc, Hid |].
    rewrite next_id_snoc, Hid in Hge.
    assert (ids = next_id items ::
                  created_ids (run (PostItems <$> bs) (items ++ [newItem])).2) as ->.
    { unfold ids. rewrite fmap_cons, run_cons. cbn [handle fst snd].
      rewrite Hpost. cbn [fst snd]. unfold created_ids. by rewrite <- Hid. }
    apply id_order_le in Hord as Hle.
    split; [simpl; by rewrite Hlen |]. split.
    + apply StronglySorted_cons. split; [| done].
      eapply Forall_impl; [exact Hge |]. simpl. intros z Hz.
      destruct Hord as [Hlt | [H1 H2]]; [left; lia |].
      right. split; [done | lia].
    + constructor; [lia |].
      eapply Forall_impl; [exact Hge |]. simpl. intros z Hz. lia.
Qed.

(** C8 fails at 2^53: two creations on an array whose last id is 2^53 - 1
    both hand out 2^53. *)
Lemma creations_ids_repeat_at_two_53 :
  let items := [ mkItem (two_53 - 1) (JStr "x") (JStr "") ] in
  let bs := [ mkBody (Some (JStr "y")) None; mkBody (Some (JStr "z")) None ] in
  let ids := created_ids (run (PostItems <$> bs) items).2 in
  Forall valid_name bs ∧ ids = [two_53; two_53] ∧ ¬ NoDup ids.
Proof.
  split; [repeat constructor |]. split; [reflexivity |].
  intros Hnd. change (NoDup [two_53; two_53]) in Hnd.
  apply NoDup_cons in Hnd as [Hin _]. apply Hin. left.
Qed.

(** C8, amended: from any array whose last id, if there is one, is between
    -2^53 and 2^53, a run that consists of [POST /items] requests with valid
    names only creates one item per request; the ids of the created items
    never decrease in creation order, and two of them are distinct unless
    both are 2^53. *)
Theorem creations_ids_nondecreasing (bs : list Body) (items : list Item) :
  Forall valid_name bs →
  (∀ l, last items = Some l → - two_53 ≤ id l ≤ two_53) →
  let ids := created_ids (run (PostItems <$> bs) items).2 in
  length ids = length bs ∧
  (∀ (i j : nat) (a b : Z),
      i ≠ j → ids !! i = Some a → ids !! j = Some b →
      a ≠ b ∨ (a = two_53 ∧ b = two_53)) ∧
  (∀ (i j : nat) (a b : Z),
      (i ≤ j)%nat → ids !! i = Some a → ids !! j = Some b → a ≤ b).
Proof.
  intros Hall Hlast ids.
  destruct (creations_ids bs items Hall (next_id_bounds _ Hlast)) as (Hlen & Hs & _).
  fold ids in Hlen, Hs.
  split; [done |].
  assert (∀ (i j : nat) (a b : Z),
      (i < j)%nat → ids !! i = Some a → ids !! j = Some b → id_order a b) as Hlt.
  { intros i j a b. by apply StronglySorted_lookup. }
  split.
  - intros i j a b Hne Ha Hb.
    destruct (Nat.lt_total i j) as [Hij | [-> | Hji]]; [| done |].
    + destruct (Hlt i j a b Hij Ha Hb) as [H | H]; [left; lia | by right].
    + destruct (Hlt j i b a Hji Hb Ha) as [H | [H1 H2]]; [left; lia | by right].
  - intros i j a b Hij Ha Hb.
    destruct (decide (i = j)) as [-> | Hne].
    + rewrite Ha in Hb. injection Hb as ->. lia.
    + apply id_order_le, (Hlt i j); [lia | done | done].
Qed.

(** Three creations on the seeded array: the ids are 3, 4 and 5. *)
Lemma creations_ids_nondecreasing_witness :
  let bs := [ mkBody (Some (JStr "Item 3")) None;
              mkBody (Some (JStr "Item 4")) (Some (JStr "Fourth item"));
              mkBody (Some (JStr "Item 5")) (Some JNull) ] in
  let ids := created_ids (run (PostItems <$> bs) items0).2 in
  (Forall valid_name bs ∧
   ∀ l, last items0 = Some l → - two_53 ≤ id l ≤ two_53) ∧
  ids = [3; 4; 5] ∧
  length ids = length bs ∧
  (∀ (i j : nat) (a b : Z),
      i ≠ j → ids !! i = Some a → ids !! j = Some b →
      a ≠ b ∨ (a = two_53 ∧ b = two_53)) ∧
  (∀ (i j : nat) (a b : Z),
      (i ≤ j)%nat → ids !! i = Some a → ids !! j = Some b → a ≤ b).
Proof.
  intros bs ids.
  assert (Forall valid_name bs) as Hall by (repeat constructor).
  assert (∀ l, last items0 = Some l → - two_53 ≤ id l ≤ two_53) as Hlast.
  { intros l [= <-]. done. }
  split; [split; [exact Hall | exact Hlast] |]. split; [reflexivity |].
  exact (creations_ids_nondecreasing bs items0 Hall Hlast).
Defined.

(** ** What [DELETE] sends back (C2) *)

(** The [deletedItem] property of the answer is the value of [splice], which
    is the array of the removed elements: a one-element array that holds the
    item as it was. *)
Lemma delete_item_deletedItem (items : list Item) (i : nat) (it : Item) :
  unique_ids items → items !! i = Some it →
  prop "deletedItem" (json (delete_item (Int (id it)) items).2) = Some (PItems [it]).
Proof.
  intros Hnd Hit.
  by rewrite (delete_item_at _ _ _ _ (findIndex_unique _ _ _ Hnd Hit) Hit).
Qed.

(** C2 at [DELETE /items/1] on the seeded array: the answer is
    [{message: "Item deleted", deletedItem: [item]}]; its [deletedItem] is an
    array around the removed item, not the removed item. *)
Theorem delete_item_sends_array :
  let it := mkItem 1 (JStr "Item 1") (JStr "First item") in
  delete_item (Int 1) items0 =
    ([mkItem 2 (JStr "Item 2") (JStr "Second item")],
     mkResponse 200
       (PObj [("message", PStr "Item deleted"); ("deletedItem", PItems [it])])) ∧
  prop "deletedItem" (json (delete_item (Int 1) items0).2) ≠ Some (PItem it).
Proof. split; [reflexivity | discriminate]. Qed.

(** ** The name of an item (C3) *)

(** [POST /items] only ever appends an item whose name is truthy; for a text
    that means non-empty. *)
Lemma post_items_name_truthy (items : list Item) (b : Body) (it : Item) :
  it ∈ (post_items b items).1 → it ∈ items ∨ truthy (name it) = true.
Proof.
  unfold post_items.
  destruct (body_name b) as [nm|]; [| by left].
  destruct (truthy nm) eqn:Hnm; [| by left]. simpl.
  intros [Hin | Hin]%elem_of_app; [by left | right].
  by apply list_elem_of_singleton in Hin as ->.
Qed.

(** As long as no [PUT] sends the empty text as a name, text-typed requests
    keep every name a non-empty text: the check of [POST] does its work, and
    [PUT] is the only way for an empty name to get in. *)
Lemma handle_names_nonempty (r : request) (items : list Item) :
  well_named r → names_nonempty items → names_nonempty (handle r items).1.
Proof.
  unfold names_nonempty. intros Hr Hitems.
  destruct r as [| n | b | n b | n]; simpl in *.
  - done.
  - unfold get_item. by destruct (find _ _).
  - unfold post_items. destruct (body_name b) as [nm|] eqn:Hb; [| done].
    destruct (truthy nm) eqn:Hnm; [| done]. simpl.
    apply Forall_app_2; [done |]. apply Forall_singleton. simpl.
    destruct (Hr nm eq_refl) as [s ->]. exists s. split; [done |].
    by apply truthy_text.
  - destruct (findIndex_spec (id_is n) items) as [[Hm _] | (i & x & Hi & Hx & _)].
    + unfold put_item. by rewrite Hm.
    + rewrite (put_item_at _ _ _ _ _ Hi Hx). simpl.
      apply Forall_insert; [done |]. simpl.
      destruct (body_name b) as [v|] eqn:Hb; simpl.
      * destruct (Hr v eq_refl) as (s & -> & Hs). by exists s.
      * by apply (Forall_lookup_1 _ _ _ _ Hitems Hx).
  - destruct (findIndex_spec (id_is n) items) as [[Hm _] | (i & x & Hi & Hx & _)].
    + unfold delete_item. by rewrite Hm.
    + rewrite (delete_item_at _ _ _ _ Hi Hx). simpl. by apply Forall_delete.
Qed.

Lemma run_names_nonempty (rs : list request) (items : list Item) :
  Forall well_named rs → names_nonempty items → names_nonempty (run rs items).1.
Proof.
  revert items. induction rs as [|r rs IH]; intros items Hrs Hitems; [done |].
  apply Forall_cons in Hrs as [Hr Hrs].
  rewrite run_cons. cbn [fst].
  apply IH; [done |]. by apply handle_names_nonempty.
Qed.

Lemma items0_names_nonempty : names_nonempty items0.
Proof. repeat constructor; eexists; (split; [reflexivity | discriminate]). Qed.

(** C3 at [PUT /items/1] with the body [{name: ""}] on the seeded array: the
    body that [POST /items] turns down with 400 is accepted, and the store is
    left with an item whose name is the empty text. *)
Theorem put_item_empty_name :
  let b := mkBody (Some (JStr "")) None in
  let new := mkItem 1 (JStr "") (JStr "First item") in
  put_item (Int 1) b items0 =
    ([new; mkItem 2 (JStr "Item 2") (JStr "Second item")],
     mkResponse 200 (PItem new)) ∧
  reachable (put_item (Int 1) b items0).1 ∧
  ¬ names_nonempty (put_item (Int 1) b items0).1 ∧
  post_items b items0 = (items0, name_required).
Proof.
  intros b new. split; [reflexivity |]. split.
  - exact (reachable_step (PutItem (Int 1) b) items0 reachable_seed).
  - split; [| reflexivity]. intros Hall.
    apply Forall_cons in Hall as [(s & Hs & Hne) _].
    simpl in Hs. by injection Hs as <-.
Qed.

(** ** The session of the specification, end to end *)

Example session :
  run [ PostItems (mkBody (Some (JStr "Item 3")) None);
        GetItems;
        PutItem (Int 2) (mkBody None (Some (JStr "Updated")));
        DeleteItem (Int 1);
        GetItem (Int 1);
        PostItems (mkBody (Some (JStr "")) None) ]
      items0 =
  let i1 := mkItem 1 (JStr "Item 1") (JStr "First item") in
  let i2 := mkItem 2 (JStr "Item 2") (JStr "Second item") in
  let i2' := mkItem 2 (JStr "Item 2") (JStr "Updated") in
  let i3 := mkItem 3 (JStr "Item 3") (JStr "") in
  ([i2'; i3],
   [ mkResponse 201 (PItem i3);
     mkResponse 200 (PItems [i1; i2; i3]);
     mkResponse 200 (PItem i2');
     mkResponse 200
       (PObj [("message", PStr "Item deleted"); ("deletedItem", PItems [i1])]);
     not_found;
     name_required ]).
Proof. reflexivity. Qed.

(** * Further properties of the handlers *)

(** ** Looking up by id *)

(** [GET /items/:id] answers with the first item of the array that carries the
    id, or with 404 when no item does; it never changes the array. *)
Theorem get_item_first_match (z : Z) (items : list Item) :
  (get_item (Int z) items).1 = items ∧
  ((absent z items ∧ (get_item (Int z) items).2 = not_found) ∨
   (∃ (i : nat) (it : Item),
       items !! i = Some it ∧ id it = z ∧
       (∀ (j : nat) (x : Item), (j < i)%nat → items !! j = Some x → id x ≠ z) ∧
       (get_item (Int z) items).2 = mkResponse 200 (PItem it))).
Proof.
  unfold get_item. rewrite find_findIndex.
  destruct (findIndex_spec (id_is (Int z)) items)
    as [[Hm Hall] | (i & it & Hi & Hit & Hp & Hall)].
  - rewrite Hm. simpl. split; [done |]. left. split; [| done].
    intros it Hin. apply id_is_Int_false.
    rewrite Forall_forall in Hall. by apply Hall.
  - rewrite Hi.
    replace (Z.of_nat i =? -1) with false by (symmetry; apply Z.eqb_neq; lia).
    rewrite Nat2Z.id, Hit. simpl. split; [done |]. right.
    exists i, it. split; [done |]. split; [by apply id_is_Int |]. split; [| done].
    intros j x Hj Hx. apply id_is_Int_false.
    rewrite Forall_forall in Hall. apply Hall.
    apply (list_elem_of_lookup_2 _ j). by rewrite lookup_take_lt.
Qed.

(** In a registry (pairwise distinct ids) [GET /items/:id] with the id of an
    item answers 200 with that very item. *)
Theorem get_item_found (items : list Item) (i : nat) (it : Item) :
  unique_ids items → items !! i = Some it →
  get_item (Int (id it)) items = (items, mkResponse 200 (PItem it)).
Proof.
  intros Hnd Hit. unfold get_item.
  rewrite find_findIndex, (findIndex_unique _ _ _ Hnd Hit).
  replace (Z.of_nat i =? -1) with false by (symmetry; apply Z.eqb_neq; lia).
  by rewrite Nat2Z.id, Hit.
Qed.

Lemma get_item_found_witness :
  let it := mkItem 2 (JStr "Item 2") (JStr "Second item") in
  (unique_ids items0 ∧ items0 !! 1%nat = Some it) ∧
  get_item (Int (id it)) items0 = (items0, mkResponse 200 (PItem it)).
Proof.
  intros it.
  assert (unique_ids items0) as Hnd by exact items0_unique.
  split; [split; [exact Hnd | reflexivity] |].
  exact (get_item_found items0 1 it Hnd eq_refl).
Defined.

(** The three handlers of [/items/:id] agree on whether the id is there:
    whatever the path parameter parses to, [GET] answers 404 exactly when
    [PUT] does and exactly when [DELETE] does. *)
Theorem id_handlers_agree (n : number) (b : Body) (items : list Item) :
  (status (get_item n items).2 = 404 ↔ status (put_item n b items).2 = 404) ∧
  (status (get_item n items).2 = 404 ↔ status (delete_item n items).2 = 404).
Proof.
  destruct (findIndex_spec (id_is n) items) as [[Hm _] | (i & x & Hi & Hx & _)].
  - unfold get_item, put_item, delete_item. rewrite find_findIndex, Hm. by simpl.
  - rewrite (put_item_at _ b _ _ _ Hi Hx), (delete_item_at _ _ _ _ Hi Hx).
    unfold get_item. rewrite find_findIndex, Hi.
    replace (Z.of_nat i =? -1) with false by (symmetry; apply Z.eqb_neq; lia).
    rewrite Nat2Z.id, Hx. simpl. split; split; discriminate.
Qed.

(** ** Scanning an array that has just been changed *)

Lemma find_snoc_false {A} (p : A → bool) (l : list A) (x : A) :
  p x = false → find p (l ++ [x]) = find p l.
Proof.
  intros Hx. induction l as [|a l IH]; simpl; [by rewrite Hx |].
  by destruct (p a).
Qed.

Lemma find_snoc_new {A} (p : A → bool) (l : list A) (x : A) :
  Forall (λ y, p y = false) l → p x = true → find p (l ++ [x]) = Some x.
Proof.
  intros Hall Hx. induction Hall as [|a l Ha _ IH]; simpl; [by rewrite Hx |].
  by rewrite Ha.
Qed.

Lemma find_insert_false {A} (p : A → bool) (l : list A) (i : nat) (x y : A) :
  l !! i = Some x → p x = false → p y = false → find p (<[i:=y]> l) = find p l.
Proof.
  revert i. induction l as [|a l IH]; intros i Hi Hx Hy; [done |].
  destruct i as [|i]; simpl in *.
  - injection Hi as ->. by rewrite Hx, Hy.
  - destruct (p a); [done |]. by apply IH.
Qed.

Lemma find_delete_false {A} (p : A → bool) (l : list A) (i : nat) (x : A) :
  l !! i = Some x → p x = false → find p (delete i l) = find p l.
Proof.
  revert i. induction l as [|a l IH]; intros i Hi Hx; [done |].
  destruct i as [|i]; simpl in *.
  - injection Hi as ->. by rewrite Hx.
  - destruct (p a); [done |]. by apply IH.
Qed.

(** Replacing the item the scan stops at by one with the same id leaves the
    scan where it was. *)
Lemma findIndex_insert (n : number) (items : list Item) (i : nat) (old new : Item) :
  findIndex (id_is n) items = Z.of_nat i → items !! i = Some old →
  id new = id old →
  findIndex (id_is n) (<[i:=new]> items) = Z.of_nat i.
Proof.
  intros Hi Hold Hid.
  destruct (findIndex_spec (id_is n) items) as [[Hm _] | (j & x & Hj & Hx & Hp & Hall)];
    [lia |].
  assert (j = i) as -> by lia.
  assert (x = old) as -> by congruence.
  apply findIndex_first with (x := new).
  - apply list_lookup_insert_eq. by eapply lookup_lt_Some.
  - destruct n as [|z]; [done |]. simpl in *. by rewrite Hid.
  - by rewrite take_insert_ge.
Qed.

Lemma status_200_found (n : number) (b : Body) (items : list Item) :
  status (put_item n b items).2 = 200 →
  ∃ (i : nat) (old : Item),
    findIndex (id_is n) items = Z.of_nat i ∧ items !! i = Some old.
Proof.
  destruct (findIndex_spec (id_is n) items) as [[Hm _] | (i & x & Hi & Hx & _)].
  - unfold put_item. rewrite Hm. simpl. discriminate.
  - intros _. by exists i, x.
Qed.

(** ** Round trips *)

(** After a [PUT] that found its item, a [GET] for the same id answers with
    exactly what the [PUT] answered: the updated item. *)
Theorem put_then_get (n : number) (b : Body) (items : list Item) :
  status (put_item n b items).2 = 200 →
  (get_item n (put_item n b items).1).2 = (put_item n b items).2.
Proof.
  intros Hst. destruct (status_200_found _ _ _ Hst) as (i & old & Hi & Hold).
  rewrite (put_item_at _ b _ _ _ Hi Hold). cbn [fst snd].
  unfold get_item. rewrite find_findIndex.
  rewrite (findIndex_insert _ _ _ old _ Hi Hold) by done.
  replace (Z.of_nat i =? -1) with false by (symmetry; apply Z.eqb_neq; lia).
  rewrite Nat2Z.id, list_lookup_insert_eq by (by eapply lookup_lt_Some).
  done.
Qed.

(** [PUT /items/2 {description: "Updated"}], then [GET /items/2]. *)
Lemma put_then_get_witness :
  let b := mkBody None (Some (JStr "Updated")) in
  status (put_item (Int 2) b items0).2 = 200 ∧
  (get_item (Int 2) (put_item (Int 2) b items0).1).2 =
    mkResponse 200 (PItem (mkItem 2 (JStr "Item 2") (JStr "Updated"))).
Proof.
  intros b. split; [reflexivity |].
  exact (put_then_get (Int 2) b items0 eq_refl).
Defined.

(** When the ids increase along the array and adding 1 is exact on them (each
    is at least -2^53 and below 2^53), a [GET] for the id of the item a
    [POST] has just created answers with that item. *)
Theorem post_then_get (b : Body) (items : list Item) :
  increasing_ids items → exact_ids items → valid_name b →
  ∃ newItem,
    (post_items b items).2 = mkResponse 201 (PItem newItem) ∧
    get_item (Int (id newItem)) (post_items b items).1 =
      ((post_items b items).1, mkResponse 200 (PItem newItem)).
Proof.
  intros Hs Hex Hv.
  destruct (post_items_valid items b Hv) as (newItem & -> & Hid).
  exists newItem. split; [done |]. cbn [fst].
  unfold get_item. rewrite find_snoc_new; [done | | by apply id_is_Int].
  apply Forall_forall. intros it Hin. apply id_is_Int_false.
  pose proof (next_id_above _ _ Hs Hex Hin). lia.
Qed.

Lemma items0_exact : exact_ids items0.
Proof.
  intros it Hin. unfold items0 in Hin.
  apply elem_of_cons in Hin as [-> | Hin]; [done |].
  by apply list_elem_of_singleton in Hin as ->.
Qed.

Lemma post_then_get_witness :
  let b := mkBody (Some (JStr "Item 3")) None in
  (increasing_ids items0 ∧ exact_ids items0 ∧ valid_name b) ∧
  ∃ newItem,
    (post_items b items0).2 = mkResponse 201 (PItem newItem) ∧
    get_item (Int (id newItem)) (post_items b items0).1 =
      ((post_items b items0).1, mkResponse 200 (PItem newItem)).
Proof.
  intros b.
  split; [split; [exact items0_increasing | split; [exact items0_exact | reflexivity]] |].
  exact (post_then_get b items0 items0_increasing items0_exact eq_refl).
Defined.

(** ** What a change for one id does to the other ids *)

(** A [PUT] or a [DELETE] for one id does not change what a [GET] for any
    other id answers. *)
Theorem other_id_untouched (z z' : Z) (b : Body) (items : list Item) :
  z ≠ z' →
  (get_item (Int z') (put_item (Int z) b items).1).2 = (get_item (Int z') items).2 ∧
  (get_item (Int z') (delete_item (Int z) items).1).2 = (get_item (Int z') items).2.
Proof.
  intros Hne.
  destruct (findIndex_spec (id_is (Int z)) items) as [[Hm _] | (i & x & Hi & Hx & Hp & _)].
  - unfold put_item, delete_item. by rewrite Hm.
  - rewrite (put_item_at _ b _ _ _ Hi Hx), (delete_item_at _ _ _ _ Hi Hx).
    cbn [fst]. unfold get_item.
    apply id_is_Int in Hp.
    assert (id_is (Int z') x = false) as Hx' by (apply id_is_Int_false; lia).
    erewrite find_insert_false; [| exact Hx | exact Hx' | exact Hx'].
    rewrite (find_delete_false _ _ _ x Hx Hx').
    split; by destruct (find _ _).
Qed.

Lemma other_id_untouched_witness :
  let b := mkBody (Some (JStr "renamed")) None in
  (1 ≠ 2) ∧
  (get_item (Int 2) (put_item (Int 1) b items0).1).2 = (get_item (Int 2) items0).2 ∧
  (get_item (Int 2) (delete_item (Int 1) items0).1).2 = (get_item (Int 2) items0).2.
Proof.
  intros b. assert (1 ≠ 2) as Hne by lia.
  split; [exact Hne | exact (other_id_untouched 1 2 b items0 Hne)].
Defined.

(** A [POST] does not change what a [GET] answers for any id other than the
    one the new item gets. *)
Theorem post_other_id_untouched (z : Z) (b : Body) (items : list Item) :
  z ≠ next_id items →
  (get_item (Int z) (post_items b items).1).2 = (get_item (Int z) items).2.
Proof.
  intros Hne. unfold post_items.
  destruct (body_name b) as [nm|]; [| done].
  destruct (truthy nm); [| done]. cbn [fst].
  unfold get_item. rewrite find_snoc_false; [by destruct (find _ _) |].
  apply id_is_Int_false. simpl. lia.
Qed.

Lemma post_other_id_untouched_witness :
  let b := mkBody (Some (JStr "Item 3")) None in
  (1 ≠ next_id items0) ∧
  (get_item (Int 1) (post_items b items0).1).2 = (get_item (Int 1) items0).2.
Proof.
  intros b. assert (1 ≠ next_id items0) as Hne by (vm_compute; discriminate).
  split; [exact Hne | exact (post_other_id_untouched 1 b items0 Hne)].
Defined.

(** ** Status codes *)

(** An answer with 400 or 404 means that the array is as it was: every handler
    takes its error return before it touches the array. *)
Theorem error_answers_leave_array (r : request) (items : list Item) :
  status (handle r items).2 = 400 ∨ status (handle r items).2 = 404 →
  (handle r items).1 = items.
Proof.
  destruct r as [| n | b | n b | n]; simpl.
  - done.
  - unfold get_item. by destruct (find _ _).
  - unfold post_items. destruct (body_name b) as [nm|]; [| done].
    destruct (truthy nm); simpl; [| done].
    intros [H | H]; discriminate.
  - destruct (findIndex_spec (id_is n) items) as [[Hm _] | (i & x & Hi & Hx & _)].
    + unfold put_item. by rewrite Hm.
    + rewrite (put_item_at _ _ _ _ _ Hi Hx). simpl.
      intros [H | H]; discriminate.
  - destruct (findIndex_spec (id_is n) items) as [[Hm _] | (i & x & Hi & Hx & _)].
    + unfold delete_item. by rewrite Hm.
    + rewrite (delete_item_at _ _ _ _ Hi Hx). simpl.
      intros [H | H]; discriminate.
Qed.

(** [POST /items] with [{name: 0}]: 400, and [DELETE /items/7]: 404. *)
Lemma error_answers_leave_array_witness :
  let r1 := PostItems (mkBody (Some (JNum (S754_zero false))) (Some (JStr "d"))) in
  let r2 := DeleteItem (Int 7) in
  ((status (handle r1 items0).2 = 400 ∨ status (handle r1 items0).2 = 404) ∧
   (handle r1 items0).1 = items0) ∧
  ((status (handle r2 items0).2 = 400 ∨ status (handle r2 items0).2 = 404) ∧
   (handle r2 items0).1 = items0).
Proof.
  intros r1 r2.
  assert (status (handle r1 items0).2 = 400 ∨ status (handle r1 items0).2 = 404)
    as H1 by (by left).
  assert (status (handle r2 items0).2 = 400 ∨ status (handle r2 items0).2 = 404)
    as H2 by (by right).
  split; split; [exact H1 | exact (error_answers_leave_array r1 items0 H1)
                | exact H2 | exact (error_answers_leave_array r2 items0 H2)].
Defined.

(** ** Invariants of the reachable states *)

(** A property of items holds throughout the array after a request when it
    held before, the item a [POST] builds has it, and the item a [PUT] builds
    from an item that has it has it too. *)
Lemma handle_Forall (P : Item → Prop) (r : request) (items : list Item) :
  (∀ nm d, truthy nm = true → P (mkItem (next_id items) nm (or_else d (JStr "")))) →
  (∀ old nm d, P old → P (mkItem (id old) (nullish nm (name old))
                                 (nullish d (description old)))) →
  Forall P items → Forall P (handle r items).1.
Proof.
  intros Hpost Hput Hitems.
  destruct r as [| n | b | n b | n]; simpl.
  - done.
  - unfold get_item. by destruct (find _ _).
  - unfold post_items. destruct (body_name b) as [nm|]; [| done].
    destruct (truthy nm) eqn:Hnm; [| done]. simpl.
    apply Forall_app_2; [done |]. apply Forall_singleton. by apply Hpost.
  - destruct (findIndex_spec (id_is n) items) as [[Hm _] | (i & x & Hi & Hx & _)].
    + unfold put_item. by rewrite Hm.
    + rewrite (put_item_at _ _ _ _ _ Hi Hx). simpl.
      apply Forall_insert; [done |]. apply Hput.
      by apply (Forall_lookup_1 _ _ _ _ Hitems Hx).
  - destruct (findIndex_spec (id_is n) items) as [[Hm _] | (i & x & Hi & Hx & _)].
    + unfold delete_item. by rewrite Hm.
    + rewrite (delete_item_at _ _ _ _ Hi Hx). simpl. by apply Forall_delete.
Qed.

Lemma truthy_not_null (v : jsval) : truthy v = true → v ≠ JNull.
Proof. by intros Hv ->. Qed.

Lemma or_else_not_null (d : option jsval) : or_else d (JStr "") ≠ JNull.
Proof.
  destruct d as [x|]; simpl; [| done].
  destruct (truthy x) eqn:Hx; [by apply truthy_not_null | done].
Qed.

Lemma nullish_not_null (v : option jsval) (d : jsval) :
  d ≠ JNull → nullish v d ≠ JNull.
Proof. intros Hd. destruct v as [x|]; [by destruct x | done]. Qed.

Lemma reachable_ids_positive_aux (items : list Item) :
  reachable items → Forall (λ it, 1 ≤ id it) items.
Proof.
  intros Hr. apply Forall_forall. intros it Hin.
  destruct (reachable_ordered _ Hr) as [Hrange _].
  pose proof (ids_in_range_elem _ _ Hrange Hin). lia.
Qed.

(** In every reachable state each item has a [name] and a [description] that
    are not [null]: [POST] only stores a truthy name and [description || ""],
    and the [??] of [PUT] never lets a [null] through. *)
Theorem reachable_fields_defined (items : list Item) :
  reachable items → Forall fields_defined items.
Proof.
  induction 1 as [| r items _ IH].
  - repeat constructor; done.
  - apply handle_Forall; [| | done]; unfold fields_defined; simpl.
    + intros nm d Hnm. split; [by apply truthy_not_null | apply or_else_not_null].
    + intros old nm d [Hn Hd]. split; by apply nullish_not_null.
Qed.

(** The store after [POST {name: "x", description: null}] and
    [PUT /items/1 {name: null, description: false}]. *)
Lemma reachable_fields_defined_witness :
  let items := [ mkItem 1 (JStr "Item 1") (JBool false);
                 mkItem 2 (JStr "Item 2") (JStr "Second item");
                 mkItem 3 (JStr "x") (JStr "") ] in
  reachable items ∧ Forall fields_defined items.
Proof.
  intros items.
  assert (reachable items) as Hr.
  { exact (run_reachable
             [ PostItems (mkBody (Some (JStr "x")) (Some JNull));
               PutItem (Int 1) (mkBody (Some JNull) (Some (JBool false))) ]
             items0 reachable_seed). }
  split; [exact Hr | exact (reachable_fields_defined items Hr)].
Defined.

(** In every reachable state every id is a positive integer. *)
Theorem reachable_ids_positive (items : list Item) :
  reachable items → ∀ it, it ∈ items → 1 ≤ id it.
Proof.
  intros Hr it Hin.
  pose proof (reachable_ids_positive_aux _ Hr) as Hall.
  rewrite Forall_forall in Hall. by apply Hall.
Qed.

(** The store after [DELETE /items/1], [DELETE /items/2] and a [POST]: the
    array was empty, so the new item gets id 1. *)
Lemma reachable_ids_positive_witness :
  let items := [ mkItem 1 (JStr "again") (JStr "") ] in
  reachable items ∧ ∀ it, it ∈ items → 1 ≤ id it.
Proof.
  intros items.
  assert (reachable items) as Hr.
  { exact (run_reachable
             [ DeleteItem (Int 1); DeleteItem (Int 2);
               PostItems (mkBody (Some (JStr "again")) None) ]
             items0 reachable_seed). }
  split; [exact Hr | exact (reachable_ids_positive items Hr)].
Defined.

(** ** Repeating and emptying a [PUT] *)

Lemma nullish_idem (v : option jsval) (d : jsval) :
  nullish v (nullish v d) = nullish v d.
Proof. destruct v as [x|]; [by destruct x | done]. Qed.

(** Sending the same [PUT] twice is the same as sending it once: the second
    request leaves the array as the first one made it and gets the same
    answer. *)
Theorem put_item_idempotent (n : number) (b : Body) (items : list Item) :
  put_item n b (put_item n b items).1 = put_item n b items.
Proof.
  destruct (findIndex_spec (id_is n) items) as [[Hm _] | (i & old & Hi & Hold & _)].
  - unfold put_item. rewrite Hm. simpl. by rewrite Hm.
  - pose (new := {| id := id old;
                    name := nullish (body_name b) (name old);
                    description := nullish (body_description b) (description old) |}).
    assert (findIndex (id_is n) (<[i:=new]> items) = Z.of_nat i) as Hi'
      by (by apply (findIndex_insert _ _ _ old)).
    assert (<[i:=new]> items !! i = Some new) as Hnew
      by (apply list_lookup_insert_eq; by eapply lookup_lt_Some).
    rewrite (put_item_at _ b _ _ _ Hi Hold). cbn [fst]. fold new.
    rewrite (put_item_at _ b _ _ _ Hi' Hnew).
    subst new. simpl. by rewrite !nullish_idem, list_insert_insert_eq.
Qed.

(** A [PUT] whose body supplies neither [name] nor [description] (each is
    missing or [null]) behaves exactly like the [GET] for the same id: the
    array is as it was, and the answer is the item or 404. *)
Theorem put_item_nothing_supplied (n : number) (b : Body) (items : list Item) :
  ¬ supplied (body_name b) → ¬ supplied (body_description b) →
  put_item n b items = get_item n items.
Proof.
  intros Hn Hd. unfold get_item. rewrite find_findIndex.
  destruct (findIndex_spec (id_is n) items) as [[Hm _] | (i & old & Hi & Hold & _)].
  - unfold put_item. by rewrite Hm.
  - rewrite (put_item_at _ b _ _ _ Hi Hold), Hi.
    replace (Z.of_nat i =? -1) with false by (symmetry; apply Z.eqb_neq; lia).
    rewrite Nat2Z.id, Hold.
    rewrite !nullish_not_supplied by done.
    destruct old as [oi on od]. simpl.
    by rewrite list_insert_id.
Qed.

(** [PUT /items/2] with the body [{name: null}]. *)
Lemma put_item_nothing_supplied_witness :
  let b := mkBody (Some JNull) None in
  (¬ supplied (body_name b) ∧ ¬ supplied (body_description b)) ∧
  put_item (Int 2) b items0 = get_item (Int 2) items0.
Proof.
  intros b.
  assert (¬ supplied (body_name b)) as Hn.
  { intros (x & Hx & Hne). simpl in Hx. injection Hx as <-. by apply Hne. }
  assert (¬ supplied (body_description b)) as Hd.
  { intros (x & Hx & _). discriminate Hx. }
  split; [split; [exact Hn | exact Hd] |].
  exact (put_item_nothing_supplied (Int 2) b items0 Hn Hd).
Defined.

(** ** What the answer says and what the array holds *)

(** Whenever a handler answers with an item (the 200 of [GET /items/:id] and
    of [PUT], the 201 of [POST]), that item is in the array the request
    leaves behind. *)
Theorem answered_item_is_stored (r : request) (items : list Item) (it : Item) :
  json (handle r items).2 = PItem it → it ∈ (handle r items).1.
Proof.
  destruct r as [| n | b | n b | n]; simpl.
  - discriminate.
  - unfold get_item. destruct (find (id_is n) items) as [x|] eqn:Hf; simpl; [| discriminate].
    intros [= <-]. apply find_some in Hf as [Hin _]. by apply list_elem_of_In.
  - unfold post_items. destruct (body_name b) as [nm|]; [| discriminate].
    destruct (truthy nm); simpl; [| discriminate].
    intros [= <-]. apply elem_of_app. right. by apply list_elem_of_singleton.
  - destruct (findIndex_spec (id_is n) items) as [[Hm _] | (i & x & Hi & Hx & _)].
    + unfold put_item. rewrite Hm. discriminate.
    + rewrite (put_item_at _ _ _ _ _ Hi Hx). simpl. intros [= <-].
      apply (list_elem_of_lookup_2 _ i).
      apply list_lookup_insert_eq. by eapply lookup_lt_Some.
  - destruct (findIndex_spec (id_is n) items) as [[Hm _] | (i & x & Hi & Hx & _)].
    + unfold delete_item. rewrite Hm. discriminate.
    + rewrite (delete_item_at _ _ _ _ Hi Hx). discriminate.
Qed.

Lemma answered_item_is_stored_witness :
  let r := PutItem (Int 2) (mkBody None (Some (JStr "Updated"))) in
  let it := mkItem 2 (JStr "Item 2") (JStr "Updated") in
  json (handle r items0).2 = PItem it ∧ it ∈ (handle r items0).1.
Proof.
  intros r it. split; [reflexivity |].
  exact (answered_item_is_stored r items0 it eq_refl).
Defined.

Lemma handle_length (r : request) (items : list Item) :
  (length (handle r items).1 + removed_count (handle r items).2 =
   length items + created_count (handle r items).2)%nat.
Proof.
  destruct r as [| n | b | n b | n]; simpl.
  - unfold removed_count, created_count. simpl. lia.
  - unfold get_item. by destruct (find _ _).
  - unfold post_items. destruct (body_name b) as [nm|]; [| done].
    destruct (truthy nm); [| done]. simpl. rewrite length_app. simpl.
    unfold removed_count, created_count. simpl. lia.
  - destruct (findIndex_spec (id_is n) items) as [[Hm _] | (i & x & Hi & Hx & _)].
    + unfold put_item. by rewrite Hm.
    + rewrite (put_item_at _ _ _ _ _ Hi Hx). simpl. rewrite length_insert.
      unfold removed_count, created_count. simpl. lia.
  - destruct (findIndex_spec (id_is n) items) as [[Hm _] | (i & x & Hi & Hx & _)].
    + unfold delete_item. by rewrite Hm.
    + rewrite (delete_item_at _ _ _ _ Hi Hx). simpl.
      rewrite length_delete by eauto. apply lookup_lt_Some in Hx.
      unfold removed_count, created_count. simpl. lia.
Qed.

(** Along any run the answers account for the size of the array: the final
    length plus the number of items reported as deleted equals the initial
    length plus the number of items reported as created. *)
Theorem run_length (rs : list request) (items : list Item) :
  (length (run rs items).1 + sum_list_with removed_count (run rs items).2 =
   length items + sum_list_with created_count (run rs items).2)%nat.
Proof.
  revert items. induction rs as [|r rs IH]; intros items; [simpl; lia |].
  rewrite run_cons. cbn [fst snd sum_list_with].
  pose proof (handle_length r items). specialize (IH (handle r items).1). lia.
Qed.

(** ** Names under text-typed requests *)

(** A run of text-typed requests none of which sends the empty text to [PUT]
    ([POST {name: ""}] gets its 400 on the way). *)
Lemma run_names_nonempty_witness :
  let rs := [ PostItems (mkBody (Some (JStr "")) None);
              PostItems (mkBody (Some (JStr "Item 3")) (Some (JStr "")));
              PutItem (Int 1) (mkBody (Some (JStr "renamed")) None);
              PutItem (Int 2) (mkBody None (Some (JStr "")));
              DeleteItem (Int 3) ] in
  (Forall well_named rs ∧ names_nonempty items0) ∧
  names_nonempty (run rs items0).1.
Proof.
  intros rs.
  assert (Forall well_named rs) as Hrs.
  { repeat constructor; simpl; intros v Hv; try discriminate Hv;
      injection Hv as <-; eexists; try (split; [reflexivity | discriminate]);
      reflexivity. }
  split; [split; [exact Hrs | exact items0_names_nonempty] |].
  exact (run_names_nonempty rs items0 Hrs items0_names_nonempty).
Defined.

(** ** The id of the next item *)

Lemma next_id_ids (items1 items2 : list Item) :
  id <$> items1 = id <$> items2 → next_id items1 = next_id items2.
Proof.
  intros Hids. unfold next_id.
  assert (id <$> last items1 = id <$> last items2) as Hl
    by (by rewrite <- !fmap_last, Hids).
  destruct (last items1), (last items2); simpl in Hl; congruence.
Qed.

Lemma last_delete {A} (l : list A) (i : nat) :
  (S i < length l)%nat → last (delete i l) = last l.
Proof.
  intros Hi. rewrite !last_lookup, length_delete by (apply lookup_lt_is_Some; lia).
  rewrite list_lookup_delete_ge by lia. f_equal. lia.
Qed.

(** The id the next [POST] hands out depends on the last item only: no [PUT],
    whatever its id and body and whatever the array, changes it; and in a
    registry (pairwise distinct ids) the [DELETE] of an item that is not the
    last one does not change it either. *)
Theorem next_id_stable (items : list Item) (n : number) (b : Body) :
  next_id (put_item n b items).1 = next_id items ∧
  (∀ (i : nat) (it : Item),
      unique_ids items → items !! i = Some it → (S i < length items)%nat →
      next_id (delete_item (Int (id it)) items).1 = next_id items).
Proof.
  split.
  - apply next_id_ids, put_item_ids.
  - intros i it Hnd Hit Hi.
    rewrite (delete_item_at _ _ _ _ (findIndex_unique _ _ _ Hnd Hit) Hit). cbn [fst].
    unfold next_id. by rewrite last_delete.
Qed.

(** Two items of an ordered array that carry the same id carry 2^53. *)
Lemma ordered_equal_ids (items : list Item) (i j : nat) (a b : Item) :
  ordered_ids items → i ≠ j → items !! i = Some a → items !! j = Some b →
  id a = id b → id a = two_53.
Proof.
  intros Hs Hne Ha Hb Heq.
  assert (∀ (i j : nat) (a b : Item),
      (i < j)%nat → items !! i = Some a → items !! j = Some b →
      id_order (id a) (id b)) as Hlt.
  { intros i' j' a' b' Hij Ha' Hb'.
    apply (StronglySorted_lookup id_order (id <$> items) i' j'); [done | done | |];
      rewrite list_lookup_fmap; [by rewrite Ha' | by rewrite Hb']. }
  destruct (Nat.lt_total i j) as [Hij | [-> | Hji]]; [| done |].
  - destruct (Hlt i j a b Hij Ha Hb) as [H | [H _]]; [lia | done].
  - destruct (Hlt j i b a Hji Hb Ha) as [H | [_ H]]; [lia | done].
Qed.

Lemma lookup_delete_other {A} (l : list A) (i j : nat) (x : A) :
  delete i l !! j = Some x → ∃ k, k ≠ i ∧ l !! k = Some x.
Proof.
  intros Hj. destruct (decide (j < i)%nat) as [Hlt | Hge].
  - exists j. split; [lia |]. by rewrite list_lookup_delete_lt in Hj.
  - exists (S j). split; [lia |]. by rewrite list_lookup_delete_ge in Hj by lia.
Qed.

(** In a reachable state, deleting the last item and then creating an item
    does not move on to a new id: the id handed out is at most the id of the
    item that was deleted, and the array is as long as before. *)
Theorem delete_last_then_post (items : list Item) (l : Item) (b : Body) :
  reachable items → last items = Some l → valid_name b →
  let rs := [DeleteItem (Int (id l)); PostItems b] in
  ∃ k, created_ids (run rs items).2 = [k] ∧ k ≤ id l ∧
       length (run rs items).1 = length items.
Proof.
  intros Hr Hlast Hv rs.
  destruct (reachable_ordered _ Hr) as [Hrange Hs].
  pose proof (last_Some_elem_of _ _ Hlast) as Hlin.
  pose proof (ids_in_range_elem _ _ Hrange Hlin) as Hrl.
  destruct (findIndex_spec (id_is (Int (id l))) items)
    as [[_ Hall] | (i & x & Hi & Hx & Hp & _)].
  { rewrite Forall_forall in Hall. specialize (Hall l Hlin).
    apply id_is_Int_false in Hall. done. }
  apply id_is_Int in Hp.
  destruct (post_items_valid (delete i items) b Hv) as (newItem & Hpost & Hid).
  exists (next_id (delete i items)).
  unfold rs. rewrite !run_cons. cbn [handle fst snd run].
  rewrite (delete_item_at _ _ _ _ Hi Hx). cbn [fst snd].
  rewrite Hpost. cbn [fst snd].
  split; [unfold created_ids; simpl; by rewrite Hid |]. split.
  - unfold next_id. destruct (last (delete i items)) as [l'|] eqn:Hl'; [| lia].
    apply last_Some_elem_of, list_elem_of_lookup_1 in Hl' as [j' Hj'].
    apply lookup_delete_other in Hj' as (j & Hji & Hj).
    pose proof (list_elem_of_lookup_2 _ _ _ Hj) as Hin'.
    pose proof (ordered_last_max _ _ Hs Hlast l' Hin') as Hle.
    pose proof (ids_in_range_elem _ _ Hrange Hin') as Hrl'.
    destruct (decide (id l' = id l)) as [Heq | Hne].
    + assert (id l' = two_53) as H53.
      { apply (ordered_equal_ids items j i l' x); [done | done | done | done |].
        by rewrite Heq, Hp. }
      rewrite H53, plus_one_two_53. lia.
    + rewrite plus_one_exact by (unfold exact_id, two_53 in *; lia). lia.
  - rewrite length_app, length_delete by eauto. simpl.
    apply lookup_lt_Some in Hx. lia.
Qed.

(** On the seeded array: [DELETE /items/2], then a [POST], gives id 2 again. *)
Lemma delete_last_then_post_witness :
  let l := mkItem 2 (JStr "Item 2") (JStr "Second item") in
  let b := mkBody (Some (JStr "Item 2 again")) None in
  let rs := [DeleteItem (Int (id l)); PostItems b] in
  (reachable items0 ∧ last items0 = Some l ∧ valid_name b) ∧
  ∃ k, created_ids (run rs items0).2 = [k] ∧ k ≤ id l ∧
       length (run rs items0).1 = length items0.
Proof.
  intros l b rs.
  split; [split; [exact reachable_seed | split; reflexivity] |].
  exact (delete_last_then_post items0 l b reachable_seed eq_refl eq_refl).
Defined.

(** ** Runs without deletions *)

Lemma handle_ids_no_delete (r : request) (items : list Item) :
  no_delete r →
  id <$> (handle r items).1 = (id <$> items) ++ created_ids [(handle r items).2].
Proof.
  intros Hr. destruct r as [| n | b | n b | n]; simpl in *.
  - by rewrite app_nil_r.
  - unfold get_item. destruct (find _ _); simpl; by rewrite app_nil_r.
  - unfold post_items. destruct (body_name b) as [nm|]; [| simpl; by rewrite app_nil_r].
    destruct (truthy nm); simpl; [by rewrite fmap_app | by rewrite app_nil_r].
  - rewrite put_item_ids.
    destruct (findIndex_spec (id_is n) items) as [[Hm _] | (i & x & Hi & Hx & _)].
    + unfold put_item. rewrite Hm. simpl. by rewrite app_nil_r.
    + rewrite (put_item_at _ _ _ _ _ Hi Hx). simpl. by rewrite app_nil_r.
  - done.
Qed.

Lemma run_ids_no_delete (rs : list request) (items : list Item) :
  Forall no_delete rs →
  id <$> (run rs items).1 = (id <$> items) ++ created_ids (run rs items).2.
Proof.
  revert items. induction rs as [|r rs IH]; intros items Hrs.
  - simpl. by rewrite app_nil_r.
  - apply Forall_cons in Hrs as [Hr Hrs].
    rewrite run_cons. cbn [fst snd].
    rewrite (IH _ Hrs), (handle_ids_no_delete _ _ Hr).
    unfold created_ids. simpl.
    destruct (created_id (handle r items).2); simpl; by rewrite <- app_assoc.
Qed.

(** A request raises the greatest id by 1 at most. *)
Lemma handle_ids_le (m : Z) (r : request) (items : list Item) :
  ids_in_range items → 1 ≤ m < two_53 →
  Forall (λ z, z ≤ m) (id <$> items) →
  Forall (λ z, z ≤ m + 1) (id <$> (handle r items).1).
Proof.
  intros Hrange Hm Hall.
  assert (Forall (λ z, z ≤ m + 1) (id <$> items)) as Hall'.
  { eapply Forall_impl; [exact Hall |]. simpl. intros z Hz. lia. }
  destruct r as [| n | b | n b | n]; simpl.
  - done.
  - unfold get_item. by destruct (find _ _).
  - unfold post_items. destruct (body_name b) as [nm|]; [| done].
    destruct (truthy nm); [| done]. simpl.
    rewrite fmap_app. apply Forall_app_2; [done |]. apply Forall_singleton. simpl.
    unfold next_id. destruct (last items) as [l|] eqn:Hl; [| lia].
    apply last_Some_elem_of in Hl.
    pose proof (ids_in_range_elem _ _ Hrange Hl) as Hrl.
    rewrite Forall_fmap, Forall_forall in Hall. specialize (Hall l Hl). simpl in Hall.
    rewrite plus_one_exact by (unfold exact_id, two_53 in *; lia). lia.
  - by rewrite put_item_ids.
  - by apply (Forall_sublist _ _ _ (fmap_sublist id _ _ (delete_item_sublist n items))).
Qed.

Lemma run_ids_le (rs : list request) (m : Z) (items : list Item) :
  reachable items → 1 ≤ m → m + Z.of_nat (length rs) ≤ two_53 →
  Forall (λ z, z ≤ m) (id <$> items) →
  Forall (λ z, z ≤ m + Z.of_nat (length rs)) (id <$> (run rs items).1).
Proof.
  revert m items. induction rs as [|r rs IH]; intros m items Hr Hm Hlen Hall.
  - simpl. eapply Forall_impl; [exact Hall |]. simpl. intros z Hz. lia.
  - simpl length in *. rewrite run_cons. cbn [fst].
    replace (m + Z.of_nat (S (length rs))) with ((m + 1) + Z.of_nat (length rs)) by lia.
    apply IH; [by apply reachable_step | lia | lia |].
    apply handle_ids_le; [by apply reachable_ordered | lia | done].
Qed.

(** A run without [DELETE] that is long enough does hand out an id twice:
    2^53 creations cannot all get different ids between 3 and 2^53. *)
Lemma run_without_delete_repeats :
  ∃ rs, Forall no_delete rs ∧ ¬ ids_never_reused rs.
Proof.
  assert (0 ≤ two_53 - 2) as Hpos by (unfold two_53; lia).
  assert (- two_53 < next_id items0 ≤ two_53) as Hn by done.
  assert (Z.of_nat (Z.to_nat two_53) = two_53) as HN by (by apply Z2Nat.id).
  generalize dependent (Z.to_nat two_53). intros N HN.
  set (b := mkBody (Some (JStr "x")) None).
  exists (PostItems <$> replicate N b). split.
  - apply Forall_fmap, Forall_replicate. exact I.
  - unfold ids_never_reused. intros Hnd.
    apply NoDup_app in Hnd as (_ & _ & Hnd).
    assert (Forall valid_name (replicate N b)) as Hv
      by (apply Forall_replicate; reflexivity).
    destruct (creations_ids (replicate N b) items0 Hv Hn) as (Hlen & _ & Hall).
    rewrite length_replicate in Hlen.
    set (ids := created_ids (run (PostItems <$> replicate N b) items0).2) in *.
    assert (ids ⊆+ seqZ 3 (two_53 - 2)) as Hsub.
    { apply NoDup_submseteq; [exact Hnd |]. intros z Hz.
      rewrite Forall_forall in Hall. specialize (Hall z Hz).
      change (next_id items0) with 3 in Hall.
      apply elem_of_seqZ. lia. }
    apply submseteq_length in Hsub. rewrite length_seqZ, Hlen in Hsub.
    apply Nat2Z.inj_le in Hsub. rewrite (Z2Nat.id _ Hpos) in Hsub.
    lia.
Qed.

(** In a run of fewer than 2^53 - 2 requests from the seeded array that
    contains no [DELETE], the ids in the array are the seeded ids followed by
    the created ids in creation order, and no id is handed out twice. *)
Theorem ids_never_reused_without_delete (rs : list request) :
  Forall no_delete rs → Z.of_nat (length rs) + 2 < two_53 →
  id <$> (run rs items0).1 = (id <$> items0) ++ created_ids (run rs items0).2 ∧
  ids_never_reused rs.
Proof.
  intros Hrs Hlen. pose proof (run_ids_no_delete rs items0 Hrs) as Hids.
  split; [done |].
  unfold ids_never_reused. rewrite <- Hids.
  pose proof (run_reachable rs items0 reachable_seed) as Hr.
  apply increasing_unique, reachable_increasing; [done |].
  intros it Hin.
  assert (Forall (λ z, z ≤ 2 + Z.of_nat (length rs)) (id <$> (run rs items0).1)) as Hle.
  { apply run_ids_le; [apply reachable_seed | lia | lia |].
    repeat constructor; simpl; lia. }
  rewrite Forall_fmap, Forall_forall in Hle. specialize (Hle it Hin).
  simpl in Hle. lia.
Qed.

Lemma ids_never_reused_without_delete_witness :
  let rs := [ PostItems (mkBody (Some (JStr "A")) None);
              PutItem (Int 3) (mkBody None (Some (JStr "first")));
              PostItems (mkBody None None);
              GetItems;
              PostItems (mkBody (Some (JStr "B")) None) ] in
  (Forall no_delete rs ∧ Z.of_nat (length rs) + 2 < two_53) ∧
  created_ids (run rs items0).2 = [3; 4] ∧
  id <$> (run rs items0).1 = (id <$> items0) ++ created_ids (run rs items0).2 ∧
  ids_never_reused rs.
Proof.
  intros rs.
  assert (Forall no_delete rs) as Hrs by (repeat constructor).
  assert (Z.of_nat (length rs) + 2 < two_53) as Hlen by done.
  split; [split; [exact Hrs | exact Hlen] |]. split; [reflexivity |].
  exact (ids_never_reused_without_delete rs Hrs Hlen).
Defined.
